(** * The outbound op pipeline of the container runtime: [Outbox]

    A shallow embedding of
    [packages/runtime/container-runtime/src/opLifecycle/outbox.ts].

    The class is stateful and talks to four collaborators (the two batch
    managers, the compressor, the splitter, the container context with its
    pending state manager).  Every method becomes a computation in a small
    state-and-exception monad over:

    - the two batch managers owned by the outbox,
    - a heap of metadata objects (op metadata is a JS object, shared by
      reference between a raw batch, its compressed form and whoever
      received it as an argument),
    - a single chronological log of the calls made to the container
      context and to the pending state manager,
    - what [shouldSend()] currently answers.

    A [throw] keeps the state reached so far, as in JavaScript.

    [BatchManager], the message types and the collaborators' interfaces are
    not part of the sources at hand; they are modelled after their
    specification, each under a comment that says so. *)

From stdpp Require Import gmap strings list fin_maps.

Local Open Scope Z_scope.

(** ** JavaScript values *)

(** A JS [number] used as a byte size or a limit: an integer or [Infinity]. *)
Inductive number :=
| Finite (z : Z)
| Infinity.

#[global] Instance number_eq_dec : EqDecision number.
Proof. solve_decision. Defined.

(** [a <= b] on numbers. *)
Definition num_leb (a b : number) : bool :=
  match a, b with
  | _, Infinity => true
  | Infinity, Finite _ => false
  | Finite x, Finite y => x <=? y
  end.

(** [a > b] on numbers. *)
Definition num_gtb (a b : number) : bool := negb (num_leb a b).

(** [a >= b] on numbers. *)
Definition num_geb (a b : number) : bool := num_leb b a.

(** The scalar values that flow through the outbox as [unknown] / [any]. *)
Inductive JSValue :=
| JUndefined
| JNull
| JBool (b : bool)
| JNum (z : Z)
| JStr (s : string).

#[global] Instance JSValue_eq_dec : EqDecision JSValue.
Proof. solve_decision. Defined.

(** JS truthiness, as tested by [if (v)]. *)
Definition truthy (v : JSValue) : bool :=
  match v with
  | JUndefined | JNull => false
  | JBool b => b
  | JNum z => negb (z =? 0)
  | JStr s => negb (String.eqb s "")
  end.

(** Metadata objects live in a heap and are passed by reference. *)
Definition loc := positive.

(** What a callee receives for a metadata argument: the reference passed,
    and the object behind it as it stands when the call is made. *)
Record MetadataArg := {
  arg_ref : option loc;
  arg_seen : option (gmap string JSValue)
}.

Definition pass (h : gmap loc (gmap string JSValue)) (r : option loc) : MetadataArg :=
  {| arg_ref := r; arg_seen := r ≫= (λ l, h !! l) |}.

(** ** Messages and batches *)

(** Modelled from the spec: [ContainerRuntimeMessage] of [containerRuntime.ts],
    the structured [{type, contents}] form of an op. *)
Record ContainerRuntimeMessage := {
  crm_type : string;
  crm_contents : JSValue
}.

(** Modelled from the spec: [BatchMessage] of [opLifecycle/definitions.ts];
    the fields are those the outbox reads. *)
Record BatchMessage := {
  contents : option string;
  metadata : option loc;
  compression : option string;
  deserializedContent : ContainerRuntimeMessage;
  localOpMetadata : JSValue;
  referenceSequenceNumber : Z
}.

(** Modelled from the spec: [IBatch] of [opLifecycle/definitions.ts]. *)
Record IBatch := {
  content : list BatchMessage;
  contentSizeInBytes : Z
}.

(** [message.contents?.length ?? 0] *)
Definition opSize (message : BatchMessage) : Z :=
  match contents message with
  | Some s => Z.of_nat (String.length s)
  | None => 0
  end.

(** ** BatchManager *)

Module BatchManager.

(** Modelled from the spec: [IBatchManagerOptions] of
    [opLifecycle/batchManager.ts].  The re-entrancy flag is only stored: no
    collaborator of this model calls back into the outbox. *)
Record Options := {
  hardLimit : number;
  softLimit : option number;
  enableOpReentryCheck : option bool
}.

(** Modelled from the spec: the state of a [BatchManager]
    ([opLifecycle/batchManager.ts] is not part of the sources at hand):
    the pending batch, its accumulated size, and the fixed limits. *)
Record t := {
  options : Options;
  pendingBatch : list BatchMessage;
  batchContentSize : Z
}.

(** Modelled from the spec: [new BatchManager(options, logger)]. *)
Definition new (o : Options) : t :=
  {| options := o; pendingBatch := []; batchContentSize := 0 |}.

(** Modelled from the spec: [push] of [batchManager.ts].  It fails, without
    mutation, iff adding the op would exceed [hardLimit]; the soft limit is
    not a failure condition. *)
Definition push (message : BatchMessage) (bm : t) : bool * t :=
  let contentSize := batchContentSize bm + opSize message in
  if num_gtb (Finite contentSize) (hardLimit (options bm)) then (false, bm)
  else (true, {| options := options bm;
                 pendingBatch := pendingBatch bm ++ [message];
                 batchContentSize := contentSize |}).

(** Modelled from the spec: [popBatch] of [batchManager.ts]: hands out the
    whole accumulated batch and resets the manager to empty. *)
Definition popBatch (bm : t) : IBatch * t :=
  ({| content := pendingBatch bm; contentSizeInBytes := batchContentSize bm |},
   {| options := options bm; pendingBatch := []; batchContentSize := 0 |}).

(** Modelled from the spec: the getter [length] of [batchManager.ts]. *)
Definition length (bm : t) : nat := List.length (pendingBatch bm).

(** Modelled from the spec: the getter [contentSizeInBytes] of
    [batchManager.ts]. *)
Definition contentSizeInBytes (bm : t) : Z := batchContentSize bm.

End BatchManager.

(** ** Collaborators and configuration *)

(** Modelled from the spec: [ICompressionRuntimeOptions] of
    [containerRuntime.ts]. *)
Record ICompressionRuntimeOptions := {
  minimumBatchSizeInBytes : number;
  compressionAlgorithm : string
}.

Record IOutboxConfig := {
  compressionOptions : option ICompressionRuntimeOptions;
  maxBatchSizeInBytes : number;
  enableOpReentryCheck : option bool
}.

Module OpCompressor.
(** Modelled from the spec: [OpCompressor] of [opLifecycle/opCompressor.ts],
    a pure transform of a batch that does not mutate its input. *)
Record t := { compressBatch : IBatch → IBatch }.
End OpCompressor.

Module OpSplitter.
(** Modelled from the spec: [OpSplitter] of [opLifecycle/opSplitter.ts], its
    flag and its transform of a compressed batch into chunks. *)
Record t := {
  isBatchChunkingEnabled : bool;
  splitCompressedBatch : IBatch → IBatch
}.
End OpSplitter.

(** Modelled from the spec: [IContainerContext] of [container-definitions],
    reduced to the one capability the outbox tests for, whether
    [submitBatchFn] is defined.  The calls made through it are recorded in
    the log. *)
Record IContainerContext := {
  submitBatchFn_defined : bool
}.

Record IOutboxParameters := {
  config : IOutboxConfig;
  compressor : OpCompressor.t;
  splitter : OpSplitter.t;
  containerContext : IContainerContext
}.

(** ** Errors *)

(** A property of the telemetry bag attached to a [GenericError].  [PJson]
    stands for [JSON.stringify] of the compression options. *)
Inductive PropValue :=
| PNum (n : number)
| PBool (b : bool)
| PJson (o : option ICompressionRuntimeOptions).

Inductive JSError :=
| GenericError (message : string) (props : list (string * PropValue))
| TypeError.

(** ** Observable calls *)

(** An element handed to [submitBatchFn]. *)
Record IBatchMessage := {
  bm_contents : option string;
  bm_metadata : MetadataArg;
  bm_compression : option string
}.

Inductive Event :=
| SubmitFn (type : string) (contents : ContainerRuntimeMessage)
           (batch : bool) (metadata : MetadataArg)
| DeltaManagerFlush
| SubmitBatchFn (batch : list IBatchMessage)
| OnSubmitMessage (type : string) (referenceSequenceNumber : Z)
                  (contents : JSValue) (localOpMetadata : JSValue)
                  (metadata : MetadataArg).

(** [MessageType.Operation] *)
Definition MessageType_Operation : string := "op".

Definition isTransportCall (e : Event) : bool :=
  match e with
  | OnSubmitMessage _ _ _ _ _ => false
  | _ => true
  end.

Definition isLedgerCall (e : Event) : bool := negb (isTransportCall e).

(** ** State and the monad *)

Record Outbox := {
  attachFlowBatch : BatchManager.t;
  mainBatch : BatchManager.t
}.

Record State := {
  this : Outbox;
  heap : gmap loc (gmap string JSValue);
  log : list Event;
  connected : bool
}.

Inductive Completion (A : Type) :=
| Normal (a : A)
| Throw (e : JSError).
Arguments Normal {A} a.
Arguments Throw {A} e.

Definition M (A : Type) : Type := State → Completion A * State.

Definition ret {A} (a : A) : M A := λ st, (Normal a, st).

Definition bind {A B} (c : M A) (k : A → M B) : M B :=
  λ st, match c st with
        | (Normal a, st') => k a st'
        | (Throw e, st') => (Throw e, st')
        end.

Definition throw {A} (e : JSError) : M A := λ st, (Throw e, st).

Definition gets {A} (f : State → A) : M A := λ st, (Normal (f st), st).

Definition modify (f : State → State) : M unit := λ st, (Normal tt, f st).

Declare Scope outbox_scope.
Delimit Scope outbox_scope with outbox.
Notation "x <- c1 ;; c2" := (bind c1 (λ x, c2))
  (at level 100, c1 at next level, c2 at level 200, right associativity)
  : outbox_scope.
Notation "c1 ;; c2" := (bind c1 (λ _, c2))
  (at level 100, c2 at level 200, right associativity) : outbox_scope.

Local Open Scope outbox_scope.

(** [for (const x of l) body(x)] *)
Fixpoint forEach {A} (body : A → M unit) (l : list A) : M unit :=
  match l with
  | [] => ret tt
  | x :: l' => body x ;; forEach body l'
  end.

Definition set_attachFlowBatch (bm : BatchManager.t) (st : State) : State :=
  {| this := {| attachFlowBatch := bm; mainBatch := mainBatch (this st) |};
     heap := heap st; log := log st; connected := connected st |}.

Definition set_mainBatch (bm : BatchManager.t) (st : State) : State :=
  {| this := {| attachFlowBatch := attachFlowBatch (this st); mainBatch := bm |};
     heap := heap st; log := log st; connected := connected st |}.

Definition set_heap (h : gmap loc (gmap string JSValue)) (st : State) : State :=
  {| this := this st; heap := h; log := log st; connected := connected st |}.

Definition append_log (es : list Event) (st : State) : State :=
  {| this := this st; heap := heap st; log := log st ++ es;
     connected := connected st |}.

(** A call to a collaborator: recorded at the end of the log. *)
Definition call (e : Event) : M unit := modify (append_log [e]).

(** ** The Outbox *)

Definition defaultAttachFlowSoftLimitInBytes : Z := 64 * 1024.

(** [constructor(params)]: the limits of the two managers are decided here,
    once.  Reading [minimumBatchSizeInBytes] off undefined compression options
    is a [TypeError]. *)
Definition constructor (params : IOutboxParameters) : Completion Outbox :=
  match compressionOptions (config params) with
  | None => Throw TypeError
  | Some options =>
      let isCompressionEnabled :=
        negb (bool_decide (minimumBatchSizeInBytes options = Infinity)) in
      let hardLimit :=
        if isCompressionEnabled then Infinity
        else maxBatchSizeInBytes (config params) in
      let softLimit :=
        if isCompressionEnabled then Infinity
        else Finite defaultAttachFlowSoftLimitInBytes in
      Normal
        {| attachFlowBatch :=
             BatchManager.new
               {| BatchManager.hardLimit := hardLimit;
                  BatchManager.softLimit := Some softLimit;
                  BatchManager.enableOpReentryCheck :=
                    enableOpReentryCheck (config params) |};
           mainBatch :=
             BatchManager.new
               {| BatchManager.hardLimit := hardLimit;
                  BatchManager.softLimit := None;
                  BatchManager.enableOpReentryCheck :=
                    enableOpReentryCheck (config params) |} |}
  end.

(** The props of the error raised by [submit] and [submitAttach]. *)
Definition pushFailure (message : BatchMessage) (bm : BatchManager.t) : JSError :=
  GenericError "BatchTooLarge"
    [("opSize", PNum (Finite (opSize message)));
     ("batchSize", PNum (Finite (BatchManager.contentSizeInBytes bm)));
     ("count", PNum (Finite (Z.of_nat (BatchManager.length bm))));
     ("limit", PNum (BatchManager.hardLimit (BatchManager.options bm)))].

Section Outbox.

Variable params : IOutboxParameters.

(** [this.params.shouldSend()]: a read of the connection state, without
    effect (so evaluating it before the [||] of [sendBatch] is harmless). *)
Definition shouldSend : M bool := gets connected.

Definition isEmpty (st : State) : bool :=
  (BatchManager.length (attachFlowBatch (this st)) =? 0)%nat
  && (BatchManager.length (mainBatch (this st)) =? 0)%nat.

(** [this.mainBatch.push(message)] *)
Definition mainBatch_push (message : BatchMessage) : M bool :=
  λ st, let '(ok, bm) := BatchManager.push message (mainBatch (this st)) in
        (Normal ok, set_mainBatch bm st).

(** [this.mainBatch.popBatch()] *)
Definition mainBatch_popBatch : M IBatch :=
  λ st, let '(b, bm) := BatchManager.popBatch (mainBatch (this st)) in
        (Normal b, set_mainBatch bm st).

(** [this.attachFlowBatch.push(message)] *)
Definition attachFlowBatch_push (message : BatchMessage) : M bool :=
  λ st, let '(ok, bm) := BatchManager.push message (attachFlowBatch (this st)) in
        (Normal ok, set_attachFlowBatch bm st).

(** [this.attachFlowBatch.popBatch()] *)
Definition attachFlowBatch_popBatch : M IBatch :=
  λ st, let '(b, bm) := BatchManager.popBatch (attachFlowBatch (this st)) in
        (Normal b, set_attachFlowBatch bm st).

Definition submit (message : BatchMessage) : M unit :=
  ok <- mainBatch_push message ;;
  if negb ok then
    bm <- gets (λ st, mainBatch (this st)) ;;
    throw (pushFailure message bm)
  else ret tt.

(** The error of the compression-overflow path. *)
Definition compressionFailure (batch compressedBatch : IBatch) : JSError :=
  GenericError "BatchTooLarge"
    [("batchSize", PNum (Finite (contentSizeInBytes batch)));
     ("compressedBatchSize", PNum (Finite (contentSizeInBytes compressedBatch)));
     ("count", PNum (Finite (Z.of_nat (length (content compressedBatch)))));
     ("limit", PNum (maxBatchSizeInBytes (config params)));
     ("chunkingEnabled",
      PBool (OpSplitter.isBatchChunkingEnabled (splitter params)));
     ("compressionOptions", PJson (compressionOptions (config params)))].

(** [a || b || c] of the guard of [compressBatch]: empty batch, undefined
    compression options, or a threshold above the size of the batch. *)
Definition nothingToCompress (batch : IBatch) : bool :=
  (length (content batch) =? 0)%nat
  || match compressionOptions (config params) with
     | None => true
     | Some options =>
         num_gtb (minimumBatchSizeInBytes options)
                 (Finite (contentSizeInBytes batch))
     end.

Definition compressBatch (batch : IBatch) : M IBatch :=
  if nothingToCompress batch then ret batch
  else
    let compressedBatch :=
      OpCompressor.compressBatch (compressor params) batch in
    if num_leb (Finite (contentSizeInBytes compressedBatch))
               (maxBatchSizeInBytes (config params))
    then ret compressedBatch
    else if OpSplitter.isBatchChunkingEnabled (splitter params)
    then ret (OpSplitter.splitCompressedBatch (splitter params) compressedBatch)
    else throw (compressionFailure batch compressedBatch).

(** [message.metadata?.compressed], as a condition. *)
Definition metadata_compressed (h : gmap loc (gmap string JSValue))
    (message : BatchMessage) : bool :=
  match metadata message with
  | None => false
  | Some l =>
      match h !! l with
      | None => false
      | Some md =>
          match md !! "compressed" with
          | None => false
          | Some v => truthy v
          end
      end
  end.

(** [delete message.metadata.compressed] *)
Definition delete_metadata_compressed (message : BatchMessage) : M unit :=
  match metadata message with
  | None => throw TypeError
  | Some l => modify (λ st, set_heap (alter (delete "compressed") l (heap st)) st)
  end.

(** The body of the loop of the legacy path. *)
Definition submitLegacy (message : BatchMessage) : M unit :=
  c <- gets (λ st, metadata_compressed (heap st) message) ;;
  (if c then delete_metadata_compressed message else ret tt) ;;
  h <- gets heap ;;
  call (SubmitFn MessageType_Operation (deserializedContent message) true
          (pass h (metadata message))).

(** The element built by the [map] of the modern path. *)
Definition toBatchMessage (h : gmap loc (gmap string JSValue))
    (message : BatchMessage) : IBatchMessage :=
  {| bm_contents := contents message;
     bm_metadata := pass h (metadata message);
     bm_compression := compression message |}.

Definition sendBatch (batch : IBatch) : M unit :=
  let length := length (content batch) in
  canSend <- shouldSend ;;
  if (length =? 0)%nat || negb canSend then ret tt
  else if negb (submitBatchFn_defined (containerContext params)) then
    forEach submitLegacy (content batch) ;;
    call DeltaManagerFlush
  else
    h <- gets heap ;;
    call (SubmitBatchFn (map (toBatchMessage h) (content batch))).

(** The body of the loop of [persistBatch]. *)
Definition onSubmitMessage (message : BatchMessage) : M unit :=
  h <- gets heap ;;
  call (OnSubmitMessage (crm_type (deserializedContent message))
          (referenceSequenceNumber message)
          (crm_contents (deserializedContent message))
          (localOpMetadata message)
          (pass h (metadata message))).

Definition persistBatch (batch : list BatchMessage) : M unit :=
  forEach onSubmitMessage batch.

Definition flushInternal (rawBatch : IBatch) : M unit :=
  processedBatch <- compressBatch rawBatch ;;
  sendBatch processedBatch ;;
  persistBatch (content rawBatch).

Definition flush : M unit :=
  rawBatch <- attachFlowBatch_popBatch ;;
  flushInternal rawBatch ;;
  rawBatch <- mainBatch_popBatch ;;
  flushInternal rawBatch.

Definition submitAttach (message : BatchMessage) : M unit :=
  ok <- attachFlowBatch_push message ;;
  (if negb ok then
     rawBatch <- attachFlowBatch_popBatch ;;
     flushInternal rawBatch ;;
     ok <- attachFlowBatch_push message ;;
     if negb ok then
       bm <- gets (λ st, attachFlowBatch (this st)) ;;
       throw (pushFailure message bm)
     else ret tt
   else ret tt) ;;
  size <- gets (λ st, BatchManager.contentSizeInBytes (attachFlowBatch (this st))) ;;
  match compressionOptions (config params) with
  | None => throw TypeError
  | Some options =>
      if num_geb (Finite size) (minimumBatchSizeInBytes options) then
        rawBatch <- attachFlowBatch_popBatch ;;
        flushInternal rawBatch
      else ret tt
  end.

End Outbox.

(** ** Closed forms of the effects *)

(** Whether the object behind a metadata value carries a truthy
    [compressed] property. *)
Definition hasCompressedFlag (md : gmap string JSValue) : bool :=
  match md !! "compressed" with
  | None => false
  | Some v => truthy v
  end.

(** What the legacy path does to one metadata object. *)
Definition strip (md : gmap string JSValue) : gmap string JSValue :=
  if hasCompressedFlag md then delete "compressed" md else md.

(** The heap after one iteration of the legacy loop. *)
Definition stripAt (h : gmap loc (gmap string JSValue)) (message : BatchMessage)
    : gmap loc (gmap string JSValue) :=
  match metadata message with
  | None => h
  | Some l => alter strip l h
  end.

(** The calls made by the legacy loop started in heap [h]. *)
Fixpoint legacyCalls (h : gmap loc (gmap string JSValue))
    (batch : list BatchMessage) : list Event :=
  match batch with
  | [] => []
  | message :: rest =>
      SubmitFn MessageType_Operation (deserializedContent message) true
               (pass (stripAt h message) (metadata message))
      :: legacyCalls (stripAt h message) rest
  end.

(** Whether [sendBatch] reaches the transport at all. *)
Definition sends (batch : IBatch) (st : State) : bool :=
  negb ((length (content batch) =? 0)%nat || negb (connected st)).

(** The heap left by [sendBatch]. *)
Definition sendHeap (params : IOutboxParameters) (batch : IBatch) (st : State)
    : gmap loc (gmap string JSValue) :=
  if sends batch st && negb (submitBatchFn_defined (containerContext params))
  then foldl stripAt (heap st) (content batch)
  else heap st.

(** The transport calls made by [sendBatch]. *)
Definition sendEvents (params : IOutboxParameters) (batch : IBatch) (st : State)
    : list Event :=
  if sends batch st then
    if negb (submitBatchFn_defined (containerContext params))
    then legacyCalls (heap st) (content batch) ++ [DeltaManagerFlush]
    else [SubmitBatchFn (map (toBatchMessage (heap st)) (content batch))]
  else [].

(** The record [persistBatch] appends for one op, read in heap [h]. *)
Definition ledgerRecord (h : gmap loc (gmap string JSValue))
    (message : BatchMessage) : Event :=
  OnSubmitMessage (crm_type (deserializedContent message))
    (referenceSequenceNumber message)
    (crm_contents (deserializedContent message))
    (localOpMetadata message)
    (pass h (metadata message)).

(** Whether [compressBatch] ends in its [throw]. *)
Definition compressionOverflows (params : IOutboxParameters) (batch : IBatch)
    : bool :=
  negb (nothingToCompress params batch)
  && negb (num_leb
             (Finite (contentSizeInBytes
                        (OpCompressor.compressBatch (compressor params) batch)))
             (maxBatchSizeInBytes (config params)))
  && negb (OpSplitter.isBatchChunkingEnabled (splitter params)).

(** The batch [compressBatch] returns when it returns. *)
Definition processed (params : IOutboxParameters) (batch : IBatch) : IBatch :=
  if nothingToCompress params batch then batch
  else
    let compressedBatch := OpCompressor.compressBatch (compressor params) batch in
    if num_leb (Finite (contentSizeInBytes compressedBatch))
               (maxBatchSizeInBytes (config params))
    then compressedBatch
    else OpSplitter.splitCompressedBatch (splitter params) compressedBatch.

(** The ledger and the wire, read off the log. *)
Definition ledger (st : State) : list Event := filter isLedgerCall (log st).
Definition wire (st : State) : list Event := filter isTransportCall (log st).

(** An outbox whose managers still carry the limits its constructor chose. *)
Definition wellConfigured (params : IOutboxParameters) (o : Outbox) : Prop :=
  ∃ o0, constructor params = Normal o0
        ∧ BatchManager.options (attachFlowBatch o)
          = BatchManager.options (attachFlowBatch o0)
        ∧ BatchManager.options (mainBatch o)
          = BatchManager.options (mainBatch o0).

(** Compression is disabled: no options at all, or an infinite threshold. *)
Definition compressionDisabled (params : IOutboxParameters) : Prop :=
  match compressionOptions (config params) with
  | None => True
  | Some options => minimumBatchSizeInBytes options = Infinity
  end.

(** The batch is strictly smaller than the compression threshold. *)
Definition belowThreshold (params : IOutboxParameters) (batch : IBatch) : Prop :=
  ∃ options, compressionOptions (config params) = Some options
             ∧ num_gtb (minimumBatchSizeInBytes options)
                       (Finite (contentSizeInBytes batch)) = true.

(** The three reasons for which [compressBatch] leaves a batch alone. *)
Definition leftAlone (params : IOutboxParameters) (batch : IBatch) : Prop :=
  content batch = [] ∨ compressionDisabled params ∨ belowThreshold params batch.

(** Heap [h] is [h0] where some objects have lost their truthy [compressed]
    flag, and nothing else happened. *)
Definition partlyStripped (h0 h : gmap loc (gmap string JSValue)) : Prop :=
  ∀ l, h !! l = h0 !! l ∨ h !! l = strip <$> (h0 !! l).

(** The end of [submitAttach]: the threshold check on the attach batch. *)
Definition thresholdCheck (params : IOutboxParameters) (st : State)
    : Completion unit * State :=
  match compressionOptions (config params) with
  | None => (Throw TypeError, st)
  | Some options =>
      if num_geb
           (Finite (BatchManager.contentSizeInBytes (attachFlowBatch (this st))))
           (minimumBatchSizeInBytes options)
      then flushInternal params
             (fst (BatchManager.popBatch (attachFlowBatch (this st))))
             (set_attachFlowBatch
                (snd (BatchManager.popBatch (attachFlowBatch (this st)))) st)
      else (Normal tt, st)
  end.

(** ** Callers of the outbox *)

(** One submission, to the main flow or to the attach flow. *)
Inductive Submission :=
| ToMain (message : BatchMessage)
| ToAttach (message : BatchMessage).

(** A call a client of the outbox can make. *)
Inductive Call :=
| CallSubmit (message : BatchMessage)
| CallSubmitAttach (message : BatchMessage)
| CallFlush.

Definition submitOne (params : IOutboxParameters) (s : Submission) : M unit :=
  match s with
  | ToMain message => submit message
  | ToAttach message => submitAttach params message
  end.

Definition perform (params : IOutboxParameters) (c : Call) : M unit :=
  match c with
  | CallSubmit message => submit message
  | CallSubmitAttach message => submitAttach params message
  | CallFlush => flush params
  end.

(** A client that makes the calls one after the other and carries on after
    an exception, with the outbox as the exception left it. *)
Fixpoint run (params : IOutboxParameters) (calls : list Call) (st : State)
    : State :=
  match calls with
  | [] => st
  | c :: rest => run params rest (snd (perform params c st))
  end.

Definition attachOps (ss : list Submission) : list BatchMessage :=
  omap (λ s, match s with ToAttach message => Some message | ToMain _ => None end) ss.

Definition mainOps (ss : list Submission) : list BatchMessage :=
  omap (λ s, match s with ToMain message => Some message | ToAttach _ => None end) ss.

(** What identifies an op in a ledger record: everything
    [onSubmitMessage] is handed, the metadata as the reference passed. *)
Definition opKey (message : BatchMessage)
    : string * Z * JSValue * JSValue * option loc :=
  (crm_type (deserializedContent message), referenceSequenceNumber message,
   crm_contents (deserializedContent message), localOpMetadata message,
   metadata message).

Definition recordKey (e : Event)
    : option (string * Z * JSValue * JSValue * option loc) :=
  match e with
  | OnSubmitMessage type seq contents local md =>
      Some (type, seq, contents, local, arg_ref md)
  | _ => None
  end.

(** The ops recorded so far, oldest first. *)
Definition ledgerOps (st : State) : list (string * Z * JSValue * JSValue * option loc) :=
  omap recordKey (log st).

(** An outcome the outbox documents: a normal return or [BatchTooLarge]. *)
Definition normalOrBatchTooLarge (c : Completion unit) : bool :=
  match c with
  | Normal _ => true
  | Throw (GenericError message _) => String.eqb message "BatchTooLarge"
  | Throw TypeError => false
  end.

(** The metadata objects the messages of a batch refer to. *)
Definition metadataRefs (batch : list BatchMessage) : list loc :=
  omap metadata batch.

(** What a call found on the log says about the transport and the
    connection at the time it was made. *)
Definition allowedCall (params : IOutboxParameters) (online : bool) (e : Event)
    : Prop :=
  match e with
  | SubmitBatchFn batch =>
      submitBatchFn_defined (containerContext params) = true
      ∧ online = true ∧ batch ≠ []
  | SubmitFn _ _ _ _ | DeltaManagerFlush =>
      submitBatchFn_defined (containerContext params) = false ∧ online = true
  | OnSubmitMessage _ _ _ _ _ => True
  end.

(** From [st] to [st'] the connection did not change and the log only
    grew, by calls that are allowed. *)
Definition disciplined (params : IOutboxParameters) (st st' : State) : Prop :=
  connected st' = connected st
  ∧ ∃ es, log st' = log st ++ es
          ∧ Forall (allowedCall params (connected st)) es.

(** ** Worker registration *)

(** A shallow embedding of [registerWorker] of
    [routerlicious/src/agent/register.ts]. *)
Module Register.

(** [config: any], as far as [registerWorker] reads it: three properties
    and the table of permitted work types per runner type. *)
Record Config := {
  onlyServer : JSValue;
  url : JSValue;
  serverUrl : JSValue;
  permission : option (gmap string (list string))
}.

(** What [registerWorker] does to the outside, in order.  [WorkManager] and
    [WorkerService] are collaborators: their construction and the calls made
    on the service are recorded with their arguments. *)
Inductive Event :=
| ConsoleLog (text : string)
| NewWorkManager (config : Config) (serverUrl : JSValue) (runnerType : string)
                 (workTypeMap : gmap string bool)
| NewWorkerService (workerUrl : JSValue) (config : Config)
                   (workTypeMap : gmap string bool)
| OnError
| Connect (name : string).

(** [workTypeMap[workType] = true] on a plain object: an own property is
    created or overwritten, except for the key [__proto__], whose setter
    ignores a value that is not an object. *)
Definition assignTrue (workTypeMap : gmap string bool) (workType : string)
    : gmap string bool :=
  if decide (workType = "__proto__") then workTypeMap
  else <[workType := true]> workTypeMap.

(** The loop over [config.permission[runnerType]], started from [{}]. *)
Definition buildWorkTypeMap (workTypes : list string) : gmap string bool :=
  foldl assignTrue ∅ workTypes.

(** [registerWorker(config, runnerType)].  The promise returned by the
    first [connect] settles after the function has returned; its rejection
    handler is the last thing the function set up, so the log lists what the
    function did and then, if the promise rejects, what the handler did.
    Reading [config.permission[runnerType]] off a missing table, or
    iterating over a missing entry, is a [TypeError]. *)
Definition registerWorker (config : Config) (runnerType : string)
    (firstConnectRejects : bool) : Completion unit * list Event :=
  if negb (truthy (onlyServer config)) then
    let workerUrl := url config in
    let serverUrl := serverUrl config in
    let registering := [ConsoleLog "Registering as worker"] in
    match permission config with
    | None => (Throw TypeError, registering)
    | Some table =>
        match table !! runnerType with
        | None => (Throw TypeError, registering)
        | Some workTypes =>
            let workTypeMap := buildWorkTypeMap workTypes in
            (Normal tt,
             registering
             ++ [NewWorkManager config serverUrl runnerType workTypeMap;
                 NewWorkerService workerUrl config workTypeMap;
                 OnError;
                 Connect "Client"]
             ++ (if firstConnectRejects
                 then [ConsoleLog "Error connecting to worker";
                       Connect "Client"]
                 else []))
        end
    end
  else (Normal tt, []).

End Register.

Module RegisterExamples.

(** A runner type with "snapshot" listed twice, "intel" and "__proto__". *)
Definition table : gmap string (list string) :=
  {["paparazzi" := ["snapshot"; "intel"; "snapshot"; "__proto__"]]}.

Definition config : Register.Config :=
  {| Register.onlyServer := JBool false;
     Register.url := JStr "http://worker";
     Register.serverUrl := JStr "http://server";
     Register.permission := Some table |}.

End RegisterExamples.

(** ** Concrete ops, collaborators and states *)

Module Examples.

Definition op (text : string) (md : option loc) (seq : Z) : BatchMessage :=
  {| contents := Some text;
     metadata := md;
     compression := None;
     deserializedContent := {| crm_type := "component"; crm_contents := JStr text |};
     localOpMetadata := JNum seq;
     referenceSequenceNumber := seq |}.

Definition hello : BatchMessage := op "hello" (Some 1%positive) 7.
Definition collaboration : BatchMessage := op "collaboration" (Some 2%positive) 7.
Definition bang : BatchMessage := op "!" None 8.

Definition quiet : BatchMessage := op "quiet" (Some 3%positive) 9.

(** Object 1 is flagged as compressed, object 2 has no such property,
    object 3 has the property with the value [false]. *)
Definition heap0 : gmap loc (gmap string JSValue) :=
  <[1%positive := <["compressed" := JBool true]> {["batch" := JBool true]}]>
    (<[2%positive := {["batch" := JBool false]}]>
       {[3%positive := {["compressed" := JBool false]}]}).

(** A compressor stub: the first op carries the packed payload, the others
    become placeholders; metadata objects are shared with the input; the
    size it reports is given. *)
Definition packedOp (message : BatchMessage) : BatchMessage :=
  {| contents := Some "packed";
     metadata := metadata message;
     compression := Some "lz4";
     deserializedContent := deserializedContent message;
     localOpMetadata := localOpMetadata message;
     referenceSequenceNumber := referenceSequenceNumber message |}.

Definition placeholder (message : BatchMessage) : BatchMessage :=
  {| contents := None;
     metadata := metadata message;
     compression := None;
     deserializedContent := deserializedContent message;
     localOpMetadata := localOpMetadata message;
     referenceSequenceNumber := referenceSequenceNumber message |}.

Definition stubCompressor (size : Z) : OpCompressor.t :=
  {| OpCompressor.compressBatch := λ batch,
       {| content := match content batch with
                     | [] => []
                     | first :: rest => packedOp first :: map placeholder rest
                     end;
          contentSizeInBytes := size |} |}.

(** A splitter stub: two chunk ops of one byte each. *)
Definition stubSplitter (enabled : bool) : OpSplitter.t :=
  {| OpSplitter.isBatchChunkingEnabled := enabled;
     OpSplitter.splitCompressedBatch := λ batch,
       {| content := [op "a" None 7; op "b" None 7];
          contentSizeInBytes := 2 |} |}.

Definition mkParams (minimum maximum : number) (compressed : Z)
    (chunking modern : bool) : IOutboxParameters :=
  {| config := {| compressionOptions :=
                    Some {| minimumBatchSizeInBytes := minimum;
                            compressionAlgorithm := "lz4" |};
                  maxBatchSizeInBytes := maximum;
                  enableOpReentryCheck := Some true |};
     compressor := stubCompressor compressed;
     splitter := stubSplitter chunking;
     containerContext := {| submitBatchFn_defined := modern |} |}.

(** A manager holding the given ops under the given limits. *)
Definition holding (o : BatchManager.Options) (ops : list BatchMessage)
    : BatchManager.t :=
  foldl (λ bm message, snd (BatchManager.push message bm)) (BatchManager.new o) ops.

Definition unbounded : BatchManager.Options :=
  {| BatchManager.hardLimit := Infinity;
     BatchManager.softLimit := None;
     BatchManager.enableOpReentryCheck := Some true |}.

Definition mkState (attach main : BatchManager.t) (online : bool) : State :=
  {| this := {| attachFlowBatch := attach; mainBatch := main |};
     heap := heap0; log := []; connected := online |}.

(** The outbox as its constructor builds it, or with empty unbounded
    managers if the constructor throws. *)
Definition constructed (params : IOutboxParameters) : Outbox :=
  match constructor params with
  | Normal o => o
  | Throw _ => {| attachFlowBatch := BatchManager.new unbounded;
                  mainBatch := BatchManager.new unbounded |}
  end.

(** The outbox of [params] after the given attach and main ops were pushed
    into its managers. *)
Definition loaded (params : IOutboxParameters)
    (attachOps mainOps : list BatchMessage) (online : bool) : State :=
  mkState
    (holding (BatchManager.options (attachFlowBatch (constructed params))) attachOps)
    (holding (BatchManager.options (mainBatch (constructed params))) mainOps)
    online.

End Examples.

(** ** Basic facts about the state *)

Lemma set_heap_id st : set_heap (heap st) st = st.
Proof. by destruct st. Qed.

Lemma append_log_nil st : append_log [] st = st.
Proof. destruct st; unfold append_log; simpl. by rewrite app_nil_r. Qed.

Lemma append_log_app es1 es2 st :
  append_log es2 (append_log es1 st) = append_log (es1 ++ es2) st.
Proof. unfold append_log; simpl. by rewrite app_assoc. Qed.

Lemma set_heap_set_heap h1 h2 st : set_heap h2 (set_heap h1 st) = set_heap h2 st.
Proof. done. Qed.

Lemma append_log_set_heap es h st :
  set_heap h (append_log es st) = append_log es (set_heap h st).
Proof. done. Qed.

(** ** The legacy loop *)

Lemma strip_no_flag md : hasCompressedFlag (strip md) = false.
Proof.
  unfold strip. destruct (hasCompressedFlag md) eqn:E; [|done].
  unfold hasCompressedFlag. by rewrite lookup_delete_eq.
Qed.

Lemma strip_idemp md : strip (strip md) = strip md.
Proof. unfold strip at 1. by rewrite strip_no_flag. Qed.

Lemma strip_flag_absent md :
  hasCompressedFlag md = true → strip md !! "compressed" = None.
Proof. intros E. unfold strip. rewrite E. apply lookup_delete_eq. Qed.

Lemma strip_other md k : k ≠ "compressed" → strip md !! k = md !! k.
Proof.
  intros Hk. unfold strip. destruct (hasCompressedFlag md); [|done].
  by rewrite lookup_delete_ne.
Qed.

(** One iteration: the guarded [delete] of the source is [stripAt]. *)
Lemma guarded_delete_stripAt h message :
  (if metadata_compressed h message
   then match metadata message with
        | Some l => alter (delete "compressed") l h
        | None => h
        end
   else h) = stripAt h message.
Proof.
  unfold metadata_compressed, stripAt.
  destruct (metadata message) as [l|]; [|done].
  apply map_eq; intros l'.
  destruct (decide (l = l')) as [<-|Hne].
  - destruct (h !! l) as [md|] eqn:Hl.
    + fold (hasCompressedFlag md). unfold strip at 1.
      rewrite lookup_alter_eq, Hl. simpl.
      destruct (hasCompressedFlag md) eqn:Hf.
      * rewrite lookup_alter_eq, Hl. done.
      * by rewrite Hl.
    + by rewrite lookup_alter_eq, Hl.
  - rewrite lookup_alter_ne by done.
    destruct (h !! l) as [md|]; [|done].
    fold (hasCompressedFlag md).
    destruct (hasCompressedFlag md); [|done].
    by rewrite lookup_alter_ne.
Qed.

Lemma submitLegacy_spec message st :
  submitLegacy message st
  = (Normal tt,
     append_log
       [SubmitFn MessageType_Operation (deserializedContent message) true
          (pass (stripAt (heap st) message) (metadata message))]
       (set_heap (stripAt (heap st) message) st)).
Proof.
  rewrite <- guarded_delete_stripAt.
  unfold submitLegacy, bind, gets, call, modify, delete_metadata_compressed.
  destruct (metadata_compressed (heap st) message) eqn:Hc.
  - unfold metadata_compressed in Hc.
    destruct (metadata message) as [l|]; [|done]. done.
  - simpl. by rewrite set_heap_id.
Qed.

Lemma forEach_submitLegacy batch st :
  forEach submitLegacy batch st
  = (Normal tt,
     append_log (legacyCalls (heap st) batch)
       (set_heap (foldl stripAt (heap st) batch) st)).
Proof.
  revert st. induction batch as [|message rest IH]; intros st; simpl.
  - by rewrite set_heap_id, append_log_nil.
  - unfold bind. rewrite submitLegacy_spec, IH. simpl.
    by rewrite append_log_set_heap, set_heap_set_heap, append_log_app.
Qed.

(** ** The three stages of a flush *)

Section Stages.

Variable params : IOutboxParameters.

Lemma sendBatch_spec batch st :
  sendBatch params batch st
  = (Normal tt,
     append_log (sendEvents params batch st)
       (set_heap (sendHeap params batch st) st)).
Proof.
  unfold sendBatch, sendEvents, sendHeap, sends, shouldSend, bind, gets.
  destruct ((length (content batch) =? 0)%nat || negb (connected st)); simpl.
  - by rewrite set_heap_id, append_log_nil.
  - destruct (submitBatchFn_defined (containerContext params)); simpl.
    + unfold call, modify. by rewrite set_heap_id.
    + rewrite forEach_submitLegacy. unfold call, modify.
      by rewrite append_log_app.
Qed.

Lemma persistBatch_spec batch st :
  persistBatch batch st
  = (Normal tt, append_log (map (ledgerRecord (heap st)) batch) st).
Proof.
  unfold persistBatch. revert st.
  induction batch as [|message rest IH]; intros st; simpl.
  - by rewrite append_log_nil.
  - unfold bind, onSubmitMessage, gets, call, modify. simpl.
    rewrite IH. by rewrite append_log_app.
Qed.

Lemma compressBatch_spec batch st :
  compressBatch params batch st
  = if compressionOverflows params batch
    then (Throw (compressionFailure params batch
                   (OpCompressor.compressBatch (compressor params) batch)), st)
    else (Normal (processed params batch), st).
Proof.
  unfold compressBatch, compressionOverflows, processed.
  destruct (nothingToCompress params batch); [reflexivity|]. cbn [negb andb].
  destruct (num_leb
              (Finite (contentSizeInBytes
                         (OpCompressor.compressBatch (compressor params) batch)))
              (maxBatchSizeInBytes (config params))); [reflexivity|].
  cbn [negb andb].
  by destruct (OpSplitter.isBatchChunkingEnabled (splitter params)).
Qed.

(** A flush that does not overflow: the processed batch goes to the
    transport, then the raw ops go to the ledger. *)
Lemma flushInternal_normal rawBatch st :
  compressionOverflows params rawBatch = false →
  flushInternal params rawBatch st
  = (Normal tt,
     append_log
       (sendEvents params (processed params rawBatch) st
        ++ map (ledgerRecord (sendHeap params (processed params rawBatch) st))
               (content rawBatch))
       (set_heap (sendHeap params (processed params rawBatch) st) st)).
Proof.
  intros Hno. unfold flushInternal, bind.
  rewrite compressBatch_spec, Hno, sendBatch_spec, persistBatch_spec.
  simpl. by rewrite append_log_app.
Qed.

(** A flush that overflows: nothing but the [throw]. *)
Lemma flushInternal_overflow rawBatch st :
  compressionOverflows params rawBatch = true →
  flushInternal params rawBatch st
  = (Throw (compressionFailure params rawBatch
              (OpCompressor.compressBatch (compressor params) rawBatch)), st).
Proof.
  intros Hov. unfold flushInternal, bind.
  by rewrite compressBatch_spec, Hov.
Qed.

(** An empty batch never overflows and flushes to nothing. *)
Lemma nothingToCompress_empty batch :
  content batch = [] → nothingToCompress params batch = true.
Proof. intros E. unfold nothingToCompress. by rewrite E. Qed.

Lemma overflow_not_nothing batch :
  nothingToCompress params batch = true →
  compressionOverflows params batch = false.
Proof. intros E. unfold compressionOverflows. by rewrite E. Qed.

Lemma processed_nothing batch :
  nothingToCompress params batch = true → processed params batch = batch.
Proof. intros E. unfold processed. by rewrite E. Qed.

Lemma flushInternal_empty rawBatch st :
  content rawBatch = [] →
  flushInternal params rawBatch st = (Normal tt, st).
Proof.
  intros E.
  rewrite flushInternal_normal
    by (apply overflow_not_nothing, nothingToCompress_empty, E).
  rewrite processed_nothing by (apply nothingToCompress_empty, E).
  unfold sendEvents, sendHeap, sends. rewrite E. simpl.
  by rewrite set_heap_id, append_log_nil.
Qed.

End Stages.

(** ** The guard of [compressBatch] *)

Lemma num_gtb_Infinity z : num_gtb Infinity (Finite z) = true.
Proof. done. Qed.

Lemma nothingToCompress_leftAlone params batch :
  nothingToCompress params batch = true ↔ leftAlone params batch.
Proof.
  unfold nothingToCompress, leftAlone, compressionDisabled, belowThreshold.
  split.
  - intros H. apply orb_true_iff in H as [H|H].
    + left. apply Nat.eqb_eq in H. by destruct (content batch).
    + right. destruct (compressionOptions (config params)) as [o|]; [|by left].
      right. by exists o.
  - intros [H|[H|(o & Ho & H)]].
    + by rewrite H.
    + apply orb_true_iff; right.
      destruct (compressionOptions (config params)) as [o|]; [|done].
      by rewrite H.
    + apply orb_true_iff; right. by rewrite Ho.
Qed.

(** C4: [compressBatch] hands back its input untouched (and [flushInternal]
    then sends that very batch) whenever the batch is empty, compression is
    disabled, or the batch is strictly smaller than
    [minimumBatchSizeInBytes]; in every other case its outcome is computed
    from the compressor's output on the batch. *)
Theorem compressBatch_threshold params batch st :
  (leftAlone params batch →
     compressBatch params batch st = (Normal batch, st)
     ∧ flushInternal params batch st
       = (sendBatch params batch ;; persistBatch (content batch)) st)
  ∧ (¬ leftAlone params batch →
     compressBatch params batch st
     = let compressedBatch :=
         OpCompressor.compressBatch (compressor params) batch in
       if num_leb (Finite (contentSizeInBytes compressedBatch))
                  (maxBatchSizeInBytes (config params))
       then (Normal compressedBatch, st)
       else if OpSplitter.isBatchChunkingEnabled (splitter params)
       then (Normal (OpSplitter.splitCompressedBatch (splitter params)
                       compressedBatch), st)
       else (Throw (compressionFailure params batch compressedBatch), st)).
Proof.
  split; intros H.
  - apply nothingToCompress_leftAlone in H.
    assert (compressBatch params batch st = (Normal batch, st)) as Hc
      by (unfold compressBatch; by rewrite H).
    split; [done|]. unfold flushInternal, bind at 1. by rewrite Hc.
  - rewrite <- nothingToCompress_leftAlone in H.
    apply not_true_is_false in H.
    unfold compressBatch. rewrite H. cbv zeta.
    destruct (num_leb _ (maxBatchSizeInBytes (config params))); [done|].
    by destruct (OpSplitter.isBatchChunkingEnabled (splitter params)).
Qed.

(** A 5-byte batch under a threshold of 8 bytes goes out as it is. *)
Lemma compressBatch_threshold_witness :
  let params := Examples.mkParams (Finite 8) (Finite 100) 3 false true in
  let batch := {| content := [Examples.hello]; contentSizeInBytes := 5 |} in
  let st := Examples.loaded params [] [] true in
  compressBatch params batch st = (Normal batch, st).
Proof.
  intros params batch st.
  apply (proj1 (compressBatch_threshold params batch st)).
  right; right. eexists; split; reflexivity.
Defined.

(** ** Compression overflow *)

Section Overflow.

Variable params : IOutboxParameters.

Lemma overflow_conditions batch options :
  content batch ≠ [] →
  compressionOptions (config params) = Some options →
  num_geb (Finite (contentSizeInBytes batch))
          (minimumBatchSizeInBytes options) = true →
  nothingToCompress params batch = false.
Proof.
  intros Hne Ho Hge. unfold nothingToCompress. rewrite Ho.
  apply orb_false_iff; split.
  - destruct (content batch); [done|reflexivity].
  - unfold num_gtb, num_geb in *. destruct (minimumBatchSizeInBytes options); simpl in *.
    + apply negb_false_iff. apply Z.leb_le. apply Z.leb_le in Hge. lia.
    + done.
Qed.

Lemma flush_attach_overflow st :
  compressionOverflows params
    (fst (BatchManager.popBatch (attachFlowBatch (this st)))) = true →
  flush params st
  = (Throw (compressionFailure params
              (fst (BatchManager.popBatch (attachFlowBatch (this st))))
              (OpCompressor.compressBatch (compressor params)
                 (fst (BatchManager.popBatch (attachFlowBatch (this st)))))),
     set_attachFlowBatch
       (snd (BatchManager.popBatch (attachFlowBatch (this st)))) st).
Proof.
  intros Hov. unfold flush, bind at 1, attachFlowBatch_popBatch.
  simpl. unfold bind at 1. by rewrite flushInternal_overflow.
Qed.

Lemma flush_attach_normal st :
  compressionOverflows params
    (fst (BatchManager.popBatch (attachFlowBatch (this st)))) = false →
  flush params st
  = (rawBatch <- mainBatch_popBatch ;; flushInternal params rawBatch)
      (snd (flushInternal params
              (fst (BatchManager.popBatch (attachFlowBatch (this st))))
              (set_attachFlowBatch
                 (snd (BatchManager.popBatch (attachFlowBatch (this st)))) st))).
Proof.
  intros Hno. unfold flush, bind at 1, attachFlowBatch_popBatch.
  simpl. unfold bind at 1. by rewrite flushInternal_normal.
Qed.

End Overflow.

(** C3: a non-empty batch at or above the compression threshold whose
    compressed form is still larger than [maxBatchSizeInBytes]: with chunking
    disabled [compressBatch] throws [BatchTooLarge] with the raw size, the
    compressed size, the op count of the compressed batch, the limit, the
    chunking flag and the compression options, and so do [flushInternal] and
    a [flush] that pops this batch; with chunking enabled the splitter's
    output is returned, sent, and the raw ops are recorded, without error. *)
Theorem compressBatch_overflow params batch options st :
  content batch ≠ [] →
  compressionOptions (config params) = Some options →
  num_geb (Finite (contentSizeInBytes batch))
          (minimumBatchSizeInBytes options) = true →
  num_gtb (Finite (contentSizeInBytes
                     (OpCompressor.compressBatch (compressor params) batch)))
          (maxBatchSizeInBytes (config params)) = true →
  let compressedBatch := OpCompressor.compressBatch (compressor params) batch in
  let tooLarge :=
    GenericError "BatchTooLarge"
      [("batchSize", PNum (Finite (contentSizeInBytes batch)));
       ("compressedBatchSize", PNum (Finite (contentSizeInBytes compressedBatch)));
       ("count", PNum (Finite (Z.of_nat (length (content compressedBatch)))));
       ("limit", PNum (maxBatchSizeInBytes (config params)));
       ("chunkingEnabled", PBool false);
       ("compressionOptions", PJson (Some options))] in
  let chunks := OpSplitter.splitCompressedBatch (splitter params) compressedBatch in
  (OpSplitter.isBatchChunkingEnabled (splitter params) = false →
     compressBatch params batch st = (Throw tooLarge, st)
     ∧ flushInternal params batch st = (Throw tooLarge, st)
     ∧ (∀ st0, fst (BatchManager.popBatch (attachFlowBatch (this st0))) = batch →
               fst (flush params st0) = Throw tooLarge)
     ∧ (∀ st0, BatchManager.length (attachFlowBatch (this st0)) = 0%nat →
               fst (BatchManager.popBatch (mainBatch (this st0))) = batch →
               fst (flush params st0) = Throw tooLarge))
  ∧ (OpSplitter.isBatchChunkingEnabled (splitter params) = true →
     compressBatch params batch st = (Normal chunks, st)
     ∧ flushInternal params batch st
       = (Normal tt,
          append_log
            (sendEvents params chunks st
             ++ map (ledgerRecord (sendHeap params chunks st)) (content batch))
            (set_heap (sendHeap params chunks st) st))).
Proof.
  intros Hne Ho Hge Hgt compressedBatch tooLarge chunks.
  pose proof (overflow_conditions params batch options Hne Ho Hge) as Hn.
  unfold num_gtb in Hgt. apply negb_true_iff in Hgt.
  split; intros Hc.
  - assert (compressionOverflows params batch = true) as Hov.
    { unfold compressionOverflows. by rewrite Hn, Hgt, Hc. }
    assert (compressionFailure params batch compressedBatch = tooLarge) as Herr.
    { unfold compressionFailure, tooLarge. by rewrite Hc, Ho. }
    rewrite <- Herr. repeat split.
    + by rewrite compressBatch_spec, Hov.
    + by apply flushInternal_overflow.
    + intros st0 Hpop. rewrite flush_attach_overflow by (by rewrite Hpop).
      by rewrite Hpop.
    + intros st0 Hempty Hpop.
      unfold BatchManager.length in Hempty. apply length_zero_iff_nil in Hempty.
      rewrite flush_attach_normal
        by (apply overflow_not_nothing, nothingToCompress_empty, Hempty).
      rewrite flushInternal_empty by exact Hempty.
      unfold bind, mainBatch_popBatch. simpl.
      unfold BatchManager.popBatch in Hpop. simpl in Hpop. rewrite Hpop.
      by rewrite flushInternal_overflow.
  - assert (compressionOverflows params batch = false) as Hno.
    { unfold compressionOverflows. rewrite Hc. by rewrite andb_false_r. }
    assert (processed params batch = chunks) as Hp.
    { unfold processed. by rewrite Hn, Hgt. }
    split.
    + by rewrite compressBatch_spec, Hno, Hp.
    + rewrite flushInternal_normal by done. by rewrite Hp.
Qed.

(** Two attach ops of 18 bytes, a threshold of 8, a compressor stub that
    reports 9 bytes against a ceiling of 4, chunking off: [flush] throws. *)
Lemma compressBatch_overflow_witness :
  let params := Examples.mkParams (Finite 8) (Finite 4) 9 false true in
  let st := Examples.loaded params [Examples.hello; Examples.collaboration] [] true in
  fst (flush params st)
  = Throw (GenericError "BatchTooLarge"
             [("batchSize", PNum (Finite 18));
              ("compressedBatchSize", PNum (Finite 9));
              ("count", PNum (Finite 2));
              ("limit", PNum (Finite 4));
              ("chunkingEnabled", PBool false);
              ("compressionOptions",
               PJson (Some {| minimumBatchSizeInBytes := Finite 8;
                              compressionAlgorithm := "lz4" |}))]).
Proof.
  intros params st.
  pose (batch := {| content := [Examples.hello; Examples.collaboration];
                    contentSizeInBytes := 18 |}).
  pose (options := {| minimumBatchSizeInBytes := Finite 8;
                      compressionAlgorithm := "lz4" |}).
  assert (content batch ≠ []) as Hne by discriminate.
  exact (proj1 (proj2 (proj2
           (proj1 (compressBatch_overflow params batch options st
                     Hne eq_refl eq_refl eq_refl) eq_refl)))
           st eq_refl).
Defined.

(** The same batch with chunking on goes out as the splitter's two chunks. *)
Example flush_chunked :
  let params := Examples.mkParams (Finite 8) (Finite 4) 9 true true in
  let st := Examples.loaded params [Examples.hello; Examples.collaboration] [] true in
  fst (flush params st) = Normal tt
  ∧ wire (snd (flush params st))
    = [SubmitBatchFn
         [{| bm_contents := Some "a"; bm_metadata := pass Examples.heap0 None;
             bm_compression := None |};
          {| bm_contents := Some "b"; bm_metadata := pass Examples.heap0 None;
             bm_compression := None |}]]
  ∧ ledger (snd (flush params st))
    = [ledgerRecord Examples.heap0 Examples.hello;
       ledgerRecord Examples.heap0 Examples.collaboration].
Proof. vm_compute. done. Qed.

(** ** submit *)

(** C7: when the push into the main manager fails, [submit] throws
    [BatchTooLarge] with the op size, the current batch size, the current op
    count and the hard limit, and nothing else happens (no flush, no retry:
    the log, the heap, the attach manager and the main batch are as before);
    when the push succeeds, [submit] returns normally and the push is its
    only effect. *)
Theorem submit_push_or_throw message st :
  match BatchManager.push message (mainBatch (this st)) with
  | (false, bm) =>
      submit message st
      = (Throw (GenericError "BatchTooLarge"
                  [("opSize", PNum (Finite (opSize message)));
                   ("batchSize",
                    PNum (Finite (BatchManager.contentSizeInBytes
                                    (mainBatch (this st)))));
                   ("count",
                    PNum (Finite (Z.of_nat (BatchManager.length
                                              (mainBatch (this st))))));
                   ("limit",
                    PNum (BatchManager.hardLimit
                            (BatchManager.options (mainBatch (this st)))))]),
         st)
  | (true, bm) =>
      submit message st = (Normal tt, set_mainBatch bm st)
      ∧ log (set_mainBatch bm st) = log st
      ∧ heap (set_mainBatch bm st) = heap st
      ∧ attachFlowBatch (this (set_mainBatch bm st)) = attachFlowBatch (this st)
  end.
Proof.
  unfold submit, bind, mainBatch_push, gets, throw, ret, pushFailure.
  unfold BatchManager.push.
  destruct (num_gtb _ _); simpl; [|done].
  by destruct st as [[? ?] ? ? ?].
Qed.

(** Compression off, a hard limit of 12 bytes, 5 bytes pending: a 13-byte op
    is refused and reported; the pending op stays where it was. *)
Example submit_refused :
  let params := Examples.mkParams Infinity (Finite 12) 0 false true in
  let st := Examples.loaded params [] [Examples.hello] true in
  submit Examples.collaboration st
  = (Throw (GenericError "BatchTooLarge"
              [("opSize", PNum (Finite 13));
               ("batchSize", PNum (Finite 5));
               ("count", PNum (Finite 1));
               ("limit", PNum (Finite 12))]),
     st).
Proof. reflexivity. Qed.

(** ** The constructor *)

(** C6, as stated, fails: with compression enabled the main manager is
    handed no soft limit at all, not an infinite one. *)
Lemma constructor_main_softLimit_counterexample :
  let params := Examples.mkParams (Finite 8) (Finite 100) 0 false true in
  ∃ o, constructor params = Normal o
       ∧ BatchManager.options (attachFlowBatch o)
         = {| BatchManager.hardLimit := Infinity;
              BatchManager.softLimit := Some Infinity;
              BatchManager.enableOpReentryCheck := Some true |}
       ∧ BatchManager.hardLimit (BatchManager.options (mainBatch o)) = Infinity
       ∧ BatchManager.softLimit (BatchManager.options (mainBatch o)) = None
       ∧ BatchManager.softLimit (BatchManager.options (mainBatch o))
         ≠ Some Infinity.
Proof. eexists. repeat split. discriminate. Qed.

(** C6, amended: the constructor decides the limits once.  With compression
    enabled (a finite [minimumBatchSizeInBytes]) both managers get an
    infinite hard limit and the attach manager an infinite soft limit;
    otherwise both get [maxBatchSizeInBytes] as hard limit and the attach
    manager a soft limit of 64 KiB.  The main manager gets no soft limit in
    either case.  Both start empty. *)
Theorem constructor_limits params options :
  compressionOptions (config params) = Some options →
  ∃ o, constructor params = Normal o
    ∧ attachFlowBatch o
      = BatchManager.new
          {| BatchManager.hardLimit :=
               if decide (minimumBatchSizeInBytes options = Infinity)
               then maxBatchSizeInBytes (config params) else Infinity;
             BatchManager.softLimit :=
               Some (if decide (minimumBatchSizeInBytes options = Infinity)
                     then Finite (64 * 1024) else Infinity);
             BatchManager.enableOpReentryCheck :=
               enableOpReentryCheck (config params) |}
    ∧ mainBatch o
      = BatchManager.new
          {| BatchManager.hardLimit :=
               if decide (minimumBatchSizeInBytes options = Infinity)
               then maxBatchSizeInBytes (config params) else Infinity;
             BatchManager.softLimit := None;
             BatchManager.enableOpReentryCheck :=
               enableOpReentryCheck (config params) |}.
Proof.
  intros Ho. unfold constructor. rewrite Ho.
  eexists. split; [reflexivity|]. cbv zeta.
  case_bool_decide; case_decide; done.
Qed.

Lemma constructor_limits_witness :
  ∃ o, constructor (Examples.mkParams Infinity (Finite 12) 0 false true) = Normal o
    ∧ attachFlowBatch o
      = BatchManager.new
          {| BatchManager.hardLimit := Finite 12;
             BatchManager.softLimit := Some (Finite 65536);
             BatchManager.enableOpReentryCheck := Some true |}
    ∧ mainBatch o
      = BatchManager.new
          {| BatchManager.hardLimit := Finite 12;
             BatchManager.softLimit := None;
             BatchManager.enableOpReentryCheck := Some true |}.
Proof.
  exact (constructor_limits
           (Examples.mkParams Infinity (Finite 12) 0 false true)
           {| minimumBatchSizeInBytes := Infinity; compressionAlgorithm := "lz4" |}
           eq_refl).
Defined.

(** ** The heap along the legacy loop *)

Lemma partlyStripped_refl h0 : partlyStripped h0 h0.
Proof. intros l. by left. Qed.

Lemma stripAt_lookup h message l :
  metadata message = Some l →
  stripAt h message !! l = strip <$> (h !! l).
Proof. intros Hm. unfold stripAt. rewrite Hm. apply lookup_alter_eq. Qed.

Lemma partlyStripped_strip h0 h l :
  partlyStripped h0 h → strip <$> (h !! l) = strip <$> (h0 !! l).
Proof.
  intros Hp. destruct (Hp l) as [-> | ->]; [done|].
  destruct (h0 !! l); simpl; [|done]. by rewrite strip_idemp.
Qed.

Lemma partlyStripped_stripAt h0 h message :
  partlyStripped h0 h → partlyStripped h0 (stripAt h message).
Proof.
  intros Hp l. unfold stripAt.
  destruct (metadata message) as [l'|]; [|apply Hp].
  destruct (decide (l' = l)) as [->|Hne].
  - right. rewrite lookup_alter_eq. by apply partlyStripped_strip.
  - rewrite lookup_alter_ne by done. apply Hp.
Qed.

Lemma partlyStripped_foldl h0 h batch :
  partlyStripped h0 h → partlyStripped h0 (foldl stripAt h batch).
Proof.
  revert h. induction batch as [|message rest IH]; intros h Hp; simpl; [done|].
  by apply IH, partlyStripped_stripAt.
Qed.

Lemma legacyCalls_length h batch : length (legacyCalls h batch) = length batch.
Proof.
  revert h. induction batch as [|message rest IH]; intros h; simpl; [done|].
  by rewrite IH.
Qed.

(** What the [i]-th single-op submission receives. *)
Lemma legacyCalls_lookup h0 h batch i message :
  partlyStripped h0 h →
  batch !! i = Some message →
  legacyCalls h batch !! i
  = Some (SubmitFn MessageType_Operation (deserializedContent message) true
            {| arg_ref := metadata message;
               arg_seen := strip <$> (metadata message ≫= (λ l, h0 !! l)) |}).
Proof.
  revert h i. induction batch as [|first rest IH]; intros h i Hp Hi; [done|].
  destruct i as [|i]; simpl in *.
  - injection Hi as ->. do 2 f_equal. unfold pass. f_equal.
    destruct (metadata message) as [l|] eqn:Hm; simpl; [|done].
    rewrite (stripAt_lookup _ _ _ Hm). by apply partlyStripped_strip.
  - apply IH; [|done]. by apply partlyStripped_stripAt.
Qed.

(** ** The legacy send path *)

(** C9: on the legacy path (no [submitBatchFn]) a batch that is sent makes
    one [submitFn] call per op, in order, each of type [Operation], with the
    op's [deserializedContent] as it is (nothing is decompressed), with the
    batch flag [true], and with the op's metadata object from which a truthy
    [compressed] flag has been deleted before the call: the object seen by
    the call never carries the flag, and where the op's metadata had it the
    property is absent and every other property is as it was.  After the
    loop the delta manager is flushed, once. *)
Theorem sendBatch_legacy params batch st :
  submitBatchFn_defined (containerContext params) = false →
  content batch ≠ [] →
  connected st = true →
  ∃ calls,
    sendBatch params batch st
    = (Normal tt,
       append_log (calls ++ [DeltaManagerFlush])
         (set_heap (foldl stripAt (heap st) (content batch)) st))
    ∧ length calls = length (content batch)
    ∧ ∀ i message, content batch !! i = Some message →
        ∃ seen,
          calls !! i
          = Some (SubmitFn MessageType_Operation (deserializedContent message)
                    true {| arg_ref := metadata message; arg_seen := seen |})
          ∧ seen = strip <$> (metadata message ≫= (λ l, heap st !! l))
          ∧ (∀ md, seen = Some md → hasCompressedFlag md = false)
          ∧ (∀ l md0, metadata message = Some l → heap st !! l = Some md0 →
               hasCompressedFlag md0 = true →
               ∃ md, seen = Some md ∧ md !! "compressed" = None
                     ∧ ∀ k, k ≠ "compressed" → md !! k = md0 !! k).
Proof.
  intros Hlegacy Hne Hconn.
  exists (legacyCalls (heap st) (content batch)). split; [|split].
  - rewrite sendBatch_spec. unfold sendEvents, sendHeap, sends.
    rewrite Hlegacy, Hconn.
    destruct (content batch); [done|]. done.
  - apply legacyCalls_length.
  - intros i message Hi. eexists. split; [|split; [reflexivity|split]].
    + by apply (legacyCalls_lookup (heap st)); [apply partlyStripped_refl|].
    + intros md Hmd.
      destruct (metadata message ≫= (λ l, heap st !! l)) as [md0|];
        simpl in Hmd; [|done].
      injection Hmd as <-. apply strip_no_flag.
    + intros l md0 Hm Hl Hflag. rewrite Hm. simpl. rewrite Hl. simpl.
      eexists. split; [reflexivity|]. split.
      * by apply strip_flag_absent.
      * intros k Hk. by apply strip_other.
Qed.

(** Two ops on the legacy path; the metadata object of the first one is
    flagged.  Its [submitFn] call sees the object without the flag. *)
Lemma sendBatch_legacy_witness :
  let params := Examples.mkParams Infinity (Finite 100) 0 false false in
  let batch := {| content := [Examples.hello; Examples.collaboration];
                  contentSizeInBytes := 18 |} in
  let st := Examples.loaded params [] [] true in
  ∃ calls,
    log (snd (sendBatch params batch st)) = calls ++ [DeltaManagerFlush]
    ∧ calls !! 0%nat
      = Some (SubmitFn "op" (deserializedContent Examples.hello) true
                {| arg_ref := Some 1%positive;
                   arg_seen := Some {["batch" := JBool true]} |}).
Proof.
  intros params batch st.
  assert (content batch ≠ []) as Hne by discriminate.
  destruct (sendBatch_legacy params batch st eq_refl Hne eq_refl)
    as (calls & Hsend & _ & Hcalls).
  destruct (Hcalls 0%nat Examples.hello eq_refl) as (seen & Hcall & Hseen & _).
  exists calls. split.
  - rewrite Hsend. reflexivity.
  - rewrite Hcall, Hseen. reflexivity.
Defined.

(** The whole legacy exchange, computed: the flagged object is stripped
    before the first call, the other object is passed as it is, the delta
    manager is flushed once, and the ledger then records both raw ops, whose
    metadata objects are the very objects the send loop went through. *)
Example flushInternal_legacy_computed :
  let params := Examples.mkParams Infinity (Finite 100) 0 false false in
  let batch := {| content := [Examples.hello; Examples.collaboration];
                  contentSizeInBytes := 18 |} in
  let st := Examples.loaded params [] [] true in
  let seen1 := {| arg_ref := Some 1%positive;
                  arg_seen := Some {["batch" := JBool true]} |} in
  let seen2 := {| arg_ref := Some 2%positive;
                  arg_seen := Some {["batch" := JBool false]} |} in
  fst (flushInternal params batch st) = Normal tt
  ∧ log (snd (flushInternal params batch st))
    = [SubmitFn "op" (deserializedContent Examples.hello) true seen1;
       SubmitFn "op" (deserializedContent Examples.collaboration) true seen2;
       DeltaManagerFlush;
       OnSubmitMessage "component" 7 (JStr "hello") (JNum 7) seen1;
       OnSubmitMessage "component" 7 (JStr "collaboration") (JNum 7) seen2].
Proof. vm_compute. done. Qed.

(** The guard of the loop is a truthiness test: a [compressed] property
    holding [false] is not a set flag, and the loop leaves it where it is. *)
Example sendBatch_legacy_unset_flag :
  let params := Examples.mkParams Infinity (Finite 100) 0 false false in
  let batch := {| content := [Examples.quiet]; contentSizeInBytes := 5 |} in
  let st := Examples.loaded params [] [] true in
  log (snd (sendBatch params batch st))
  = [SubmitFn "op" (deserializedContent Examples.quiet) true
       {| arg_ref := Some 3%positive;
          arg_seen := Some {["compressed" := JBool false]} |};
     DeltaManagerFlush]
  ∧ heap (snd (sendBatch params batch st)) = heap st.
Proof. vm_compute. done. Qed.

(** ** The ledger and the wire as projections of the log *)

Lemma ledger_of_records h batch :
  filter isLedgerCall (map (ledgerRecord h) batch) = map (ledgerRecord h) batch.
Proof.
  induction batch as [|message rest IH]; simpl; [done|].
  rewrite filter_cons_True by done. by rewrite IH.
Qed.

Lemma wire_of_records h batch :
  filter isTransportCall (map (ledgerRecord h) batch) = [].
Proof.
  induction batch as [|message rest IH]; simpl; [done|].
  by rewrite filter_cons_False by (simpl; tauto).
Qed.

Lemma wire_of_legacyCalls h batch :
  filter isTransportCall (legacyCalls h batch) = legacyCalls h batch.
Proof.
  revert h. induction batch as [|message rest IH]; intros h; simpl; [done|].
  rewrite filter_cons_True by done. by rewrite IH.
Qed.

Lemma ledger_of_legacyCalls h batch :
  filter isLedgerCall (legacyCalls h batch) = [].
Proof.
  revert h. induction batch as [|message rest IH]; intros h; simpl; [done|].
  by rewrite filter_cons_False by (simpl; tauto).
Qed.

Lemma wire_of_sendEvents params batch st :
  filter isTransportCall (sendEvents params batch st) = sendEvents params batch st.
Proof.
  unfold sendEvents. destruct (sends batch st); [|done].
  destruct (negb (submitBatchFn_defined (containerContext params))); [|done].
  rewrite filter_app, wire_of_legacyCalls. done.
Qed.

Lemma ledger_of_sendEvents params batch st :
  filter isLedgerCall (sendEvents params batch st) = [].
Proof.
  unfold sendEvents. destruct (sends batch st); [|done].
  destruct (negb (submitBatchFn_defined (containerContext params))); [|done].
  rewrite filter_app, ledger_of_legacyCalls. done.
Qed.

Lemma sendHeap_partlyStripped params batch st :
  partlyStripped (heap st) (sendHeap params batch st).
Proof.
  unfold sendHeap.
  destruct (sends batch st && negb (submitBatchFn_defined (containerContext params))).
  - apply partlyStripped_foldl, partlyStripped_refl.
  - apply partlyStripped_refl.
Qed.

Lemma sendEvents_nonempty params batch st :
  sends batch st = true → sendEvents params batch st ≠ [].
Proof.
  intros Hs. unfold sendEvents. rewrite Hs.
  destruct (negb (submitBatchFn_defined (containerContext params))); [|done].
  by destruct (legacyCalls (heap st) (content batch)).
Qed.

(** ** Ledger fidelity *)

(** C2: a flush that gets past compression appends to the ledger exactly one
    record per op of the raw batch, in order, made of that op's type,
    reference sequence number, deserialized contents, local op metadata and
    metadata object, whatever the compressor and the splitter made of the
    batch and whichever send path was taken.  The metadata object is passed
    by reference: what the ledger sees behind it is the object as the send
    left it, which is the object as it was before the flush except, where the
    legacy path went through it, for a deleted truthy [compressed] flag. *)
Theorem flushInternal_ledger params rawBatch st :
  compressionOverflows params rawBatch = false →
  ∃ st',
    flushInternal params rawBatch st = (Normal tt, st')
    ∧ ledger st'
      = ledger st
        ++ map (λ message,
                  OnSubmitMessage
                    (crm_type (deserializedContent message))
                    (referenceSequenceNumber message)
                    (crm_contents (deserializedContent message))
                    (localOpMetadata message)
                    {| arg_ref := metadata message;
                       arg_seen := metadata message ≫= (λ l, heap st' !! l) |})
               (content rawBatch)
    ∧ partlyStripped (heap st) (heap st')
    ∧ (submitBatchFn_defined (containerContext params) = true →
       heap st' = heap st).
Proof.
  intros Hno. eexists. split; [by apply flushInternal_normal|].
  split; [|split].
  - unfold ledger; simpl.
    rewrite !filter_app, ledger_of_sendEvents, ledger_of_records. done.
  - simpl. apply sendHeap_partlyStripped.
  - intros Hmodern. simpl. unfold sendHeap. rewrite Hmodern.
    by rewrite andb_false_r.
Qed.

(** A compressed batch on the modern path: one packed submission on the
    wire, the two raw ops in the ledger. *)
Lemma flushInternal_ledger_witness :
  let params := Examples.mkParams (Finite 8) (Finite 100) 6 false true in
  let rawBatch := {| content := [Examples.hello; Examples.collaboration];
                     contentSizeInBytes := 18 |} in
  let st := Examples.loaded params [] [] true in
  ∃ st',
    flushInternal params rawBatch st = (Normal tt, st')
    ∧ ledger st'
      = [OnSubmitMessage "component" 7 (JStr "hello") (JNum 7)
           (pass Examples.heap0 (Some 1%positive));
         OnSubmitMessage "component" 7 (JStr "collaboration") (JNum 7)
           (pass Examples.heap0 (Some 2%positive))].
Proof.
  intros params rawBatch st.
  destruct (flushInternal_ledger params rawBatch st eq_refl)
    as (st' & Hflush & Hledger & _ & Hheap).
  exists st'. split; [exact Hflush|].
  rewrite Hledger, (Hheap eq_refl). reflexivity.
Defined.

(** ** Disconnected or empty: nothing on the wire *)

(** C8: when the batch handed to [sendBatch] is empty, or [shouldSend()]
    answers false, [sendBatch] returns normally without any call to the
    transport (the state is untouched), and [flushInternal] still appends one
    record per op of the raw batch to the ledger. *)
Theorem sendBatch_silent params rawBatch st :
  compressionOverflows params rawBatch = false →
  content (processed params rawBatch) = [] ∨ connected st = false →
  sendBatch params (processed params rawBatch) st = (Normal tt, st)
  ∧ ∃ st',
      flushInternal params rawBatch st = (Normal tt, st')
      ∧ log st' = log st ++ map (ledgerRecord (heap st)) (content rawBatch)
      ∧ wire st' = wire st
      ∧ ledger st' = ledger st ++ map (ledgerRecord (heap st)) (content rawBatch)
      ∧ heap st' = heap st.
Proof.
  intros Hno Hsilent.
  assert (sends (processed params rawBatch) st = false) as Hs.
  { unfold sends. destruct Hsilent as [-> | ->]; [done|].
    by rewrite orb_true_r. }
  assert (sendEvents params (processed params rawBatch) st = []) as He
    by (unfold sendEvents; by rewrite Hs).
  assert (sendHeap params (processed params rawBatch) st = heap st) as Hh
    by (unfold sendHeap; by rewrite Hs).
  split.
  - rewrite sendBatch_spec, He, Hh. by rewrite set_heap_id, append_log_nil.
  - eexists. split; [by apply flushInternal_normal|].
    rewrite He, Hh, set_heap_id. simpl. unfold wire, ledger. simpl.
    rewrite !filter_app, wire_of_records, ledger_of_records.
    by rewrite app_nil_r.
Qed.

(** Offline, with two ops pending in the main manager and compression off:
    the flush leaves the wire empty and the ledger holds both ops. *)
Lemma sendBatch_silent_witness :
  let params := Examples.mkParams Infinity (Finite 100) 0 false true in
  let rawBatch := {| content := [Examples.hello; Examples.collaboration];
                     contentSizeInBytes := 18 |} in
  let st := Examples.loaded params [] [] false in
  ∃ st',
    flushInternal params rawBatch st = (Normal tt, st')
    ∧ wire st' = []
    ∧ ledger st'
      = [ledgerRecord Examples.heap0 Examples.hello;
         ledgerRecord Examples.heap0 Examples.collaboration].
Proof.
  intros params rawBatch st.
  destruct (sendBatch_silent params rawBatch st eq_refl (or_intror eq_refl))
    as (_ & st' & Hflush & _ & Hwire & Hledger & _).
  exists st'. split; [exact Hflush|]. split.
  - rewrite Hwire. reflexivity.
  - rewrite Hledger. reflexivity.
Defined.

(** ** The order of a flush *)

Lemma flushInternal_frame_main params rawBatch st :
  mainBatch (this (snd (flushInternal params rawBatch st))) = mainBatch (this st).
Proof.
  destruct (compressionOverflows params rawBatch) eqn:Hov.
  - by rewrite flushInternal_overflow.
  - by rewrite flushInternal_normal.
Qed.

(** C1: [flush] pops the attach batch and takes it through compression, send
    and ledger while the main manager is left as it was, and only then pops
    and processes the main batch (if the attach batch throws, the main batch
    is never popped).  When no batch overflows, everything the attach batch
    put on the log (its transport calls, then its ledger records) comes
    before everything of the main batch; on the wire the attach batch's calls
    precede the main batch's, and a batch that is sent makes at least one
    call. *)
Theorem flush_attach_before_main params st :
  let rawAttach := fst (BatchManager.popBatch (attachFlowBatch (this st))) in
  let rawMain := fst (BatchManager.popBatch (mainBatch (this st))) in
  let afterAttach :=
    flushInternal params rawAttach
      (set_attachFlowBatch
         (snd (BatchManager.popBatch (attachFlowBatch (this st)))) st) in
  mainBatch (this (snd afterAttach)) = mainBatch (this st)
  ∧ flush params st
    = match fst afterAttach with
      | Normal _ =>
          flushInternal params rawMain
            (set_mainBatch (snd (BatchManager.popBatch (mainBatch (this st))))
               (snd afterAttach))
      | Throw e => (Throw e, snd afterAttach)
      end
  ∧ (compressionOverflows params rawAttach = false →
     compressionOverflows params rawMain = false →
     ∃ st1 st2,
       afterAttach = (Normal tt, st1)
       ∧ flush params st = (Normal tt, st2)
       ∧ log st1
         = log st
           ++ sendEvents params (processed params rawAttach) st
           ++ map (ledgerRecord (heap st1)) (content rawAttach)
       ∧ log st2
         = log st1
           ++ sendEvents params (processed params rawMain) st1
           ++ map (ledgerRecord (heap st2)) (content rawMain)
       ∧ wire st2
         = wire st
           ++ sendEvents params (processed params rawAttach) st
           ++ sendEvents params (processed params rawMain) st1
       ∧ (connected st = true →
          content (processed params rawAttach) ≠ [] →
          content (processed params rawMain) ≠ [] →
          sendEvents params (processed params rawAttach) st ≠ []
          ∧ sendEvents params (processed params rawMain) st1 ≠ [])).
Proof.
  intros rawAttach rawMain afterAttach.
  assert (mainBatch (this (snd afterAttach)) = mainBatch (this st)) as Hframe
    by exact (flushInternal_frame_main params rawAttach
                (set_attachFlowBatch
                   (snd (BatchManager.popBatch (attachFlowBatch (this st)))) st)).
  assert (flush params st
          = match fst afterAttach with
            | Normal _ =>
                flushInternal params rawMain
                  (set_mainBatch
                     (snd (BatchManager.popBatch (mainBatch (this st))))
                     (snd afterAttach))
            | Throw e => (Throw e, snd afterAttach)
            end) as Hseq.
  { unfold flush, bind, attachFlowBatch_popBatch, mainBatch_popBatch.
    cbn [BatchManager.popBatch]. fold rawAttach.
    change (flushInternal params _ (set_attachFlowBatch _ st)) with afterAttach.
    destruct afterAttach as [[[]|e] st1]; [|done].
    cbn [fst snd] in *. by rewrite Hframe. }
  split; [exact Hframe|]. split; [exact Hseq|].
  intros HnoA HnoM. rewrite Hseq. clear Hseq Hframe. subst afterAttach.
  rewrite flushInternal_normal by done. cbn [fst snd].
  rewrite flushInternal_normal by done.
  eexists. eexists.
  split; [reflexivity|]. split; [reflexivity|].
  split; [done|]. split; [done|]. split.
  { unfold wire. simpl.
    rewrite !filter_app, !wire_of_sendEvents, !wire_of_records.
    rewrite !app_nil_r, <- app_assoc. done. }
  intros Hconn HneA HneM. split; apply sendEvents_nonempty; unfold sends; simpl;
    rewrite Hconn.
  - by destruct (content (processed params rawAttach)).
  - by destruct (content (processed params rawMain)).
Qed.

(** One attach op and two main ops, online, modern transport, compression
    off: the attach batch is submitted first. *)
Lemma flush_attach_before_main_witness :
  let params := Examples.mkParams Infinity (Finite 100) 0 false true in
  let st := Examples.loaded params [Examples.hello]
              [Examples.collaboration; Examples.bang] true in
  ∃ st2,
    flush params st = (Normal tt, st2)
    ∧ wire st2
      = [SubmitBatchFn [toBatchMessage Examples.heap0 Examples.hello];
         SubmitBatchFn [toBatchMessage Examples.heap0 Examples.collaboration;
                        toBatchMessage Examples.heap0 Examples.bang]].
Proof.
  intros params st.
  destruct (proj2 (proj2 (flush_attach_before_main params st)) eq_refl eq_refl)
    as (st1 & st2 & Hattach & Hflush & _ & _ & Hwire & _).
  exists st2. split; [exact Hflush|].
  rewrite Hwire.
  replace st1 with (snd (Normal (), st1)) by reflexivity.
  rewrite <- Hattach. reflexivity.
Defined.

(** ** The shape of [submitAttach] *)

Lemma submitAttach_unfold params message st :
  submitAttach params message st
  = let attach := attachFlowBatch (this st) in
    let bm := snd (BatchManager.push message attach) in
    if fst (BatchManager.push message attach)
    then thresholdCheck params (set_attachFlowBatch bm st)
    else
      match flushInternal params (fst (BatchManager.popBatch bm))
              (set_attachFlowBatch (snd (BatchManager.popBatch bm)) st) with
      | (Normal _, st1) =>
          let bm2 := snd (BatchManager.push message (attachFlowBatch (this st1))) in
          if fst (BatchManager.push message (attachFlowBatch (this st1)))
          then thresholdCheck params (set_attachFlowBatch bm2 st1)
          else (Throw (pushFailure message bm2), set_attachFlowBatch bm2 st1)
      | (Throw e, st1) => (Throw e, st1)
      end.
Proof.
  unfold submitAttach, thresholdCheck, bind, attachFlowBatch_push,
    attachFlowBatch_popBatch, gets, throw, ret.
  cbv zeta.
  destruct (BatchManager.push message (attachFlowBatch (this st))) as [[|] bm];
    simpl.
  - destruct (compressionOptions (config params)); [|done].
    by destruct (num_geb _ _).
  - destruct (flushInternal _ _ _) as [[[]|e] st1]; [|done].
    destruct (BatchManager.push message (attachFlowBatch (this st1)))
      as [[|] bm2]; simpl; [|done].
    destruct (compressionOptions (config params)); [|done].
    by destruct (num_geb _ _).
Qed.

(** ** A flush that overflows loses the batch *)

(** C10: when the compression of a popped batch overflows, the call throws
    with the batch already taken out of its manager, nothing of it sent and
    nothing of it recorded.  In [flush], for the attach batch the log and the
    heap are as before and the main manager is untouched; for the main batch
    the log holds what the attach batch put there and nothing more.  In
    [submitAttach], when the threshold flush overflows, the attach manager is
    left empty (the op just pushed went with the batch) and the log and the
    heap are as before the call. *)
Theorem flush_overflow_drops_batch params st :
  let rawAttach := fst (BatchManager.popBatch (attachFlowBatch (this st))) in
  let rawMain := fst (BatchManager.popBatch (mainBatch (this st))) in
  (compressionOverflows params rawAttach = true →
   ∃ st',
     flush params st
     = (Throw (compressionFailure params rawAttach
                 (OpCompressor.compressBatch (compressor params) rawAttach)), st')
     ∧ BatchManager.length (attachFlowBatch (this st')) = 0%nat
     ∧ mainBatch (this st') = mainBatch (this st)
     ∧ log st' = log st
     ∧ heap st' = heap st)
  ∧ (compressionOverflows params rawAttach = false →
     compressionOverflows params rawMain = true →
     ∃ st1 st',
       flushInternal params rawAttach
         (set_attachFlowBatch
            (snd (BatchManager.popBatch (attachFlowBatch (this st)))) st)
       = (Normal tt, st1)
       ∧ flush params st
         = (Throw (compressionFailure params rawMain
                     (OpCompressor.compressBatch (compressor params) rawMain)), st')
       ∧ BatchManager.length (attachFlowBatch (this st')) = 0%nat
       ∧ BatchManager.length (mainBatch (this st')) = 0%nat
       ∧ log st' = log st1
       ∧ heap st' = heap st1)
  ∧ (∀ message options,
       compressionOptions (config params) = Some options →
       let pushed := BatchManager.push message (attachFlowBatch (this st)) in
       let rawBatch := fst (BatchManager.popBatch (snd pushed)) in
       fst pushed = true →
       num_geb (Finite (BatchManager.contentSizeInBytes (snd pushed)))
               (minimumBatchSizeInBytes options) = true →
       compressionOverflows params rawBatch = true →
       ∃ st',
         submitAttach params message st
         = (Throw (compressionFailure params rawBatch
                     (OpCompressor.compressBatch (compressor params) rawBatch)),
            st')
         ∧ BatchManager.length (attachFlowBatch (this st')) = 0%nat
         ∧ mainBatch (this st') = mainBatch (this st)
         ∧ log st' = log st
         ∧ heap st' = heap st).
Proof.
  intros rawAttach rawMain. split; [|split].
  - intros Hov. eexists. split; [by apply flush_attach_overflow|].
    repeat split; reflexivity.
  - intros HnoA HovM. eexists. eexists.
    split; [by apply flushInternal_normal|]. split.
    { rewrite flush_attach_normal by done.
      fold rawAttach. rewrite flushInternal_normal by done.
      unfold bind, mainBatch_popBatch. simpl.
      by rewrite flushInternal_overflow. }
    repeat split; reflexivity.
  - intros message options Ho pushed rawBatch Hok Hge Hov.
    eexists. split.
    { rewrite submitAttach_unfold. cbv zeta. fold pushed. rewrite Hok.
      unfold thresholdCheck. rewrite Ho.
      cbn [this attachFlowBatch set_attachFlowBatch]. rewrite Hge.
      fold rawBatch. by rewrite flushInternal_overflow. }
    repeat split; reflexivity.
Qed.

(** Two attach ops that the compressor cannot bring under the ceiling, no
    chunking: after the failed [flush] the attach manager is empty and
    neither the wire nor the ledger has heard of the ops. *)
Lemma flush_overflow_drops_batch_witness :
  let params := Examples.mkParams (Finite 8) (Finite 4) 9 false true in
  let st := Examples.loaded params [Examples.hello; Examples.collaboration] [] true in
  ∃ e st',
    flush params st = (Throw e, st')
    ∧ BatchManager.length (attachFlowBatch (this st)) = 2%nat
    ∧ BatchManager.length (attachFlowBatch (this st')) = 0%nat
    ∧ log st' = [].
Proof.
  intros params st.
  destruct (proj1 (flush_overflow_drops_batch params st) eq_refl)
    as (st' & Hflush & Hempty & _ & Hlog & _).
  eexists. exists st'. split; [exact Hflush|].
  split; [reflexivity|]. split; [exact Hempty|].
  rewrite Hlog. reflexivity.
Defined.

(** ** The limits never change *)

Lemma push_options message bm :
  BatchManager.options (snd (BatchManager.push message bm)) = BatchManager.options bm.
Proof. unfold BatchManager.push. by destruct (num_gtb _ _). Qed.

Lemma popBatch_options bm :
  BatchManager.options (snd (BatchManager.popBatch bm)) = BatchManager.options bm.
Proof. done. Qed.

Lemma push_refused message bm :
  fst (BatchManager.push message bm) = false →
  BatchManager.hardLimit (BatchManager.options bm) ≠ Infinity
  ∧ snd (BatchManager.push message bm) = bm.
Proof.
  unfold BatchManager.push.
  destruct (BatchManager.hardLimit (BatchManager.options bm)) eqn:Hl.
  - case_match; simpl; [done|discriminate].
  - discriminate.
Qed.

Lemma flushInternal_this params rawBatch st :
  this (snd (flushInternal params rawBatch st)) = this st.
Proof.
  destruct (compressionOverflows params rawBatch) eqn:Hov.
  - by rewrite flushInternal_overflow.
  - by rewrite flushInternal_normal.
Qed.

Lemma constructor_wellConfigured params o :
  constructor params = Normal o → wellConfigured params o.
Proof. intros H. by exists o. Qed.

Lemma wellConfigured_options params o o' :
  wellConfigured params o →
  BatchManager.options (attachFlowBatch o') = BatchManager.options (attachFlowBatch o) →
  BatchManager.options (mainBatch o') = BatchManager.options (mainBatch o) →
  wellConfigured params o'.
Proof.
  intros (o0 & Hc & Ha & Hm) Ha' Hm'. exists o0.
  split; [done|]. split; congruence.
Qed.

(** With a finite hard limit on the attach manager, the constructor saw
    compression disabled. *)
Lemma wellConfigured_finite params o :
  wellConfigured params o →
  BatchManager.hardLimit (BatchManager.options (attachFlowBatch o)) ≠ Infinity →
  ∃ options, compressionOptions (config params) = Some options
             ∧ minimumBatchSizeInBytes options = Infinity.
Proof.
  intros (o0 & Hc & Ha & _) Hfin. unfold constructor in Hc.
  destruct (compressionOptions (config params)) as [options|]; [|done].
  exists options. split; [done|].
  injection Hc as <-. rewrite Ha in Hfin. simpl in Hfin.
  by case_bool_decide.
Qed.

Lemma disabled_nothingToCompress params options batch :
  compressionOptions (config params) = Some options →
  minimumBatchSizeInBytes options = Infinity →
  nothingToCompress params batch = true.
Proof.
  intros Ho Hmin. unfold nothingToCompress. rewrite Ho, Hmin.
  apply orb_true_r.
Qed.

Lemma flush_wellConfigured params st :
  wellConfigured params (this st) →
  wellConfigured params (this (snd (flush params st))).
Proof.
  intros Hw. unfold flush, bind, attachFlowBatch_popBatch, mainBatch_popBatch.
  simpl.
  pose proof (flushInternal_this params
    {| content := BatchManager.pendingBatch (attachFlowBatch (this st));
       contentSizeInBytes := BatchManager.batchContentSize (attachFlowBatch (this st)) |}
    (set_attachFlowBatch
       {| BatchManager.options := BatchManager.options (attachFlowBatch (this st));
          BatchManager.pendingBatch := [];
          BatchManager.batchContentSize := 0 |} st)) as H1.
  destruct (flushInternal _ _ _) as [[[]|e] st1]; simpl in *.
  - match goal with |- context [flushInternal params ?b ?s] =>
      pose proof (flushInternal_this params b s) as H2;
      destruct (flushInternal params b s) as [[[]|e2] st2] end;
    simpl in *; rewrite H2; simpl; rewrite H1; simpl;
    by apply (wellConfigured_options params (this st)).
  - rewrite H1. by apply (wellConfigured_options params (this st)).
Qed.

Lemma submit_wellConfigured message st params :
  wellConfigured params (this st) →
  wellConfigured params (this (snd (submit message st))).
Proof.
  intros Hw. unfold submit, bind, mainBatch_push, gets, throw, ret.
  pose proof (push_options message (mainBatch (this st))) as Ho.
  destruct (BatchManager.push message (mainBatch (this st))) as [[|] bm];
    simpl in *; by apply (wellConfigured_options params (this st)).
Qed.

(** ** submitAttach *)

(** C5: for an outbox that carries the limits its constructor chose.  When
    the first push into the attach manager succeeds, [submitAttach] ends with
    the threshold check: if the attach batch has reached
    [minimumBatchSizeInBytes] it is popped and flushed before returning,
    otherwise nothing more happens.  When the first push fails, the batch
    accumulated so far is popped and flushed, once and to completion (its
    transport calls, then its ledger records; compression is off in that
    case, so the flush cannot throw), and the push is retried once on the
    emptied manager: if the retry fails, [BatchTooLarge] is thrown with the
    op size, the current batch size and op count, and the hard limit, and
    nothing else was done after the one flush; if it succeeds, the same
    threshold check ends the call. *)
Theorem submitAttach_retry params options message st :
  wellConfigured params (this st) →
  compressionOptions (config params) = Some options →
  let attach := attachFlowBatch (this st) in
  let thresholdFlush := λ (bm : BatchManager.t) (st' : State),
    if num_geb (Finite (BatchManager.contentSizeInBytes bm))
               (minimumBatchSizeInBytes options)
    then flushInternal params (fst (BatchManager.popBatch bm))
           (set_attachFlowBatch (snd (BatchManager.popBatch bm)) st')
    else (Normal tt, set_attachFlowBatch bm st') in
  match BatchManager.push message attach with
  | (true, bm) => submitAttach params message st = thresholdFlush bm st
  | (false, _) =>
      let rawBatch := fst (BatchManager.popBatch attach) in
      let emptied := snd (BatchManager.popBatch attach) in
      ∃ st1,
        flushInternal params rawBatch (set_attachFlowBatch emptied st)
        = (Normal tt, st1)
        ∧ log st1
          = log st ++ sendEvents params rawBatch st
            ++ map (ledgerRecord (heap st1)) (content rawBatch)
        ∧ attachFlowBatch (this st1) = emptied
        ∧ mainBatch (this st1) = mainBatch (this st)
        ∧ match BatchManager.push message emptied with
          | (true, bm) => submitAttach params message st = thresholdFlush bm st1
          | (false, _) =>
              submitAttach params message st
              = (Throw (GenericError "BatchTooLarge"
                          [("opSize", PNum (Finite (opSize message)));
                           ("batchSize",
                            PNum (Finite (BatchManager.contentSizeInBytes emptied)));
                           ("count",
                            PNum (Finite (Z.of_nat (BatchManager.length emptied))));
                           ("limit",
                            PNum (BatchManager.hardLimit
                                    (BatchManager.options emptied)))]),
                 st1)
          end
  end.
Proof.
  intros Hw Ho attach thresholdFlush.
  pose proof (submitAttach_unfold params message st) as Hsub.
  cbv zeta in Hsub. fold attach in Hsub.
  unfold thresholdCheck in Hsub. rewrite Ho in Hsub.
  destruct (BatchManager.push message attach) as [[|] bm] eqn:Hpush.
  - exact Hsub.
  - intros rawBatch emptied.
    pose proof (push_refused message attach) as Hr. rewrite Hpush in Hr.
    destruct (Hr eq_refl) as [Hfin Hsame]. simpl in Hsame. subst bm.
    destruct (wellConfigured_finite params (this st) Hw Hfin)
      as (options' & Ho' & Hmin).
    rewrite Ho in Ho'. injection Ho' as <-.
    assert (compressionOverflows params rawBatch = false) as Hno
      by (eapply overflow_not_nothing, disabled_nothingToCompress; eauto).
    assert (processed params rawBatch = rawBatch) as Hp
      by (eapply processed_nothing, disabled_nothingToCompress; eauto).
    cbn [fst snd] in Hsub. fold rawBatch emptied in Hsub.
    rewrite flushInternal_normal in Hsub by done.
    eexists. split; [by apply flushInternal_normal|].
    split; [by rewrite Hp|]. split; [done|]. split; [done|].
    cbn [this attachFlowBatch set_heap append_log set_attachFlowBatch] in Hsub.
    destruct (BatchManager.push message emptied) as [[|] bm] eqn:Hpush2.
    + exact Hsub.
    + pose proof (push_refused message emptied) as Hr2. rewrite Hpush2 in Hr2.
      destruct (Hr2 eq_refl) as [_ Hsame2]. simpl in Hsame2. subst bm.
      exact Hsub.
Qed.

(** Compression off, a hard limit of 15 bytes, "hello" pending: attaching a
    13-byte op flushes "hello" (sent, then recorded), and the retried push
    leaves the new op alone in the manager. *)
Lemma submitAttach_retry_witness :
  let params := Examples.mkParams Infinity (Finite 15) 0 false true in
  let st := Examples.loaded params [Examples.hello] [] true in
  ∃ st',
    submitAttach params Examples.collaboration st = (Normal tt, st')
    ∧ log st'
      = [SubmitBatchFn [toBatchMessage Examples.heap0 Examples.hello];
         ledgerRecord Examples.heap0 Examples.hello]
    ∧ BatchManager.pendingBatch (attachFlowBatch (this st'))
      = [Examples.collaboration].
Proof.
  intros params st.
  assert (wellConfigured params (this st)) as Hw
    by (eexists; repeat split; reflexivity).
  pose proof (submitAttach_retry params
                {| minimumBatchSizeInBytes := Infinity;
                   compressionAlgorithm := "lz4" |}
                Examples.collaboration st Hw eq_refl) as H.
  cbv zeta in H.
  assert (BatchManager.push Examples.collaboration (attachFlowBatch (this st))
          = (false, attachFlowBatch (this st))) as Hpush by reflexivity.
  rewrite Hpush in H.
  destruct H as (st1 & Hflush & _ & _ & _ & Hretry).
  assert (st1 = snd (flushInternal params
                       (fst (BatchManager.popBatch (attachFlowBatch (this st))))
                       (set_attachFlowBatch
                          (snd (BatchManager.popBatch (attachFlowBatch (this st))))
                          st))) as ->
    by (rewrite Hflush; reflexivity).
  eexists. split; [exact Hretry|]. split; reflexivity.
Defined.

(** With a hard limit of 12 bytes the retry fails too: one flush, then the
    error, and the op is nowhere. *)
Example submitAttach_too_large :
  let params := Examples.mkParams Infinity (Finite 12) 0 false true in
  let st := Examples.loaded params [Examples.hello] [] true in
  fst (submitAttach params Examples.collaboration st)
  = Throw (GenericError "BatchTooLarge"
             [("opSize", PNum (Finite 13));
              ("batchSize", PNum (Finite 0));
              ("count", PNum (Finite 0));
              ("limit", PNum (Finite 12))])
  ∧ log (snd (submitAttach params Examples.collaboration st))
    = [SubmitBatchFn [toBatchMessage Examples.heap0 Examples.hello];
       ledgerRecord Examples.heap0 Examples.hello]
  ∧ BatchManager.pendingBatch
      (attachFlowBatch (this (snd (submitAttach params Examples.collaboration st))))
    = [].
Proof. vm_compute. done. Qed.

(** With compression on, an attach op that takes the batch to the threshold
    is flushed at once. *)
Example submitAttach_threshold :
  let params := Examples.mkParams (Finite 8) (Finite 100) 6 false true in
  let st := Examples.loaded params [Examples.hello] [] true in
  fst (submitAttach params Examples.collaboration st) = Normal tt
  ∧ ledger (snd (submitAttach params Examples.collaboration st))
    = [ledgerRecord Examples.heap0 Examples.hello;
       ledgerRecord Examples.heap0 Examples.collaboration]
  ∧ BatchManager.pendingBatch
      (attachFlowBatch (this (snd (submitAttach params Examples.collaboration st))))
    = [].
Proof. vm_compute. done. Qed.

Lemma submitAttach_wellConfigured params message st :
  wellConfigured params (this st) →
  wellConfigured params (this (snd (submitAttach params message st))).
Proof.
  intros Hw. rewrite submitAttach_unfold. cbv zeta.
  pose proof (push_options message (attachFlowBatch (this st))) as Ho1.
  assert (∀ st', BatchManager.options (attachFlowBatch (this st'))
                 = BatchManager.options (attachFlowBatch (this st)) →
                 mainBatch (this st') = mainBatch (this st) →
                 wellConfigured params (this (snd (thresholdCheck params st'))))
    as Hcheck.
  { intros st' Ha Hm. unfold thresholdCheck.
    destruct (compressionOptions (config params));
      [|simpl; apply (wellConfigured_options params (this st)); congruence].
    destruct (num_geb _ _);
      [|simpl; apply (wellConfigured_options params (this st)); congruence].
    rewrite flushInternal_this. simpl.
    apply (wellConfigured_options params (this st)); simpl; congruence. }
  destruct (fst (BatchManager.push message (attachFlowBatch (this st)))).
  - apply Hcheck; [done|done].
  - match goal with |- context [flushInternal params ?b ?s] =>
      pose proof (flushInternal_this params b s) as H1;
      destruct (flushInternal params b s) as [[[]|e] st1] end; simpl in H1.
    + pose proof (push_options message (attachFlowBatch (this st1))) as Ho2.
      destruct (fst (BatchManager.push message (attachFlowBatch (this st1)))).
      * apply Hcheck; simpl; rewrite ?Ho2, H1; simpl; done.
      * apply (wellConfigured_options params (this st)); simpl;
          rewrite ?Ho2, ?H1; simpl; done.
    + simpl. rewrite H1. apply (wellConfigured_options params (this st)); simpl; done.
Qed.

(** ** What a flush leaves behind *)

Lemma recordKeys_records h batch :
  omap recordKey (map (ledgerRecord h) batch) = map opKey batch.
Proof.
  induction batch as [|message rest IH]; [done|].
  cbn. unfold opKey at 1. f_equal. exact IH.
Qed.

Lemma recordKeys_legacyCalls h batch : omap recordKey (legacyCalls h batch) = [].
Proof.
  revert h. induction batch as [|message rest IH]; intros h; simpl; [done|].
  apply IH.
Qed.

Lemma recordKeys_sendEvents params batch st :
  omap recordKey (sendEvents params batch st) = [].
Proof.
  unfold sendEvents. destruct (sends batch st); [|done].
  destruct (negb (submitBatchFn_defined (containerContext params))); [|done].
  by rewrite omap_app, recordKeys_legacyCalls.
Qed.

(** The ops a flush that returns records: those of the raw batch. *)
Lemma flushInternal_recorded params rawBatch st st' :
  flushInternal params rawBatch st = (Normal tt, st') →
  this st' = this st
  ∧ ledgerOps st' = ledgerOps st ++ map opKey (content rawBatch).
Proof.
  destruct (compressionOverflows params rawBatch) eqn:Hov.
  - by rewrite flushInternal_overflow.
  - rewrite flushInternal_normal by done. intros [= <-]. split; [done|].
    unfold ledgerOps. simpl.
    by rewrite !omap_app, recordKeys_sendEvents, recordKeys_records.
Qed.

Lemma isEmpty_pending st :
  isEmpty st = true ↔
  BatchManager.pendingBatch (attachFlowBatch (this st)) = []
  ∧ BatchManager.pendingBatch (mainBatch (this st)) = [].
Proof.
  unfold isEmpty, BatchManager.length.
  rewrite andb_true_iff, !Nat.eqb_eq, !length_zero_iff_nil. done.
Qed.

(** X1: [flush] on an outbox that [isEmpty] returns normally and reaches no
    collaborator: nothing is compressed, nothing is sent (whatever
    [shouldSend()] says and whichever transport is there), nothing is
    recorded, no metadata object is touched, and the outbox is still empty. *)
Theorem flush_empty_noop params st :
  isEmpty st = true →
  ∃ st',
    flush params st = (Normal tt, st')
    ∧ log st' = log st
    ∧ heap st' = heap st
    ∧ connected st' = connected st
    ∧ isEmpty st' = true.
Proof.
  intros Hempty. apply isEmpty_pending in Hempty as [Ha Hm].
  rewrite flush_attach_normal
    by (apply overflow_not_nothing, nothingToCompress_empty, Ha).
  rewrite flushInternal_empty by exact Ha.
  unfold bind, mainBatch_popBatch. cbn [BatchManager.popBatch snd fst].
  rewrite flushInternal_empty by exact Hm.
  eexists. split; [reflexivity|]. repeat split; reflexivity.
Qed.

Lemma flush_empty_noop_witness :
  let params := Examples.mkParams (Finite 8) (Finite 4) 9 false false in
  let st := Examples.loaded params [] [] true in
  ∃ st', flush params st = (Normal tt, st') ∧ log st' = [].
Proof.
  intros params st.
  destruct (flush_empty_noop params st eq_refl) as (st' & Hflush & Hlog & _).
  exists st'. split; [exact Hflush|]. rewrite Hlog. reflexivity.
Defined.

Lemma flush_outcome params st :
  BatchManager.length (attachFlowBatch (this (snd (flush params st)))) = 0%nat
  ∧ (fst (flush params st) = Normal tt →
     isEmpty (snd (flush params st)) = true
     ∧ ledgerOps (snd (flush params st))
       = ledgerOps st
         ++ map opKey (BatchManager.pendingBatch (attachFlowBatch (this st)))
         ++ map opKey (BatchManager.pendingBatch (mainBatch (this st)))).
Proof.
  destruct (compressionOverflows params
              (fst (BatchManager.popBatch (attachFlowBatch (this st))))) eqn:HovA.
  { rewrite flush_attach_overflow by done. split; [done|discriminate]. }
  rewrite flush_attach_normal by done.
  rewrite flushInternal_normal by done.
  unfold bind, mainBatch_popBatch.
  cbn [BatchManager.popBatch fst snd this mainBatch attachFlowBatch
       set_heap append_log set_attachFlowBatch].
  match goal with |- context [flushInternal params ?b ?s] =>
    destruct (compressionOverflows params b) eqn:HovM;
    [rewrite (flushInternal_overflow params b s HovM)
    |rewrite (flushInternal_normal params b s HovM)] end.
  { split; [done|discriminate]. }
  split; [done|]. intros _. split; [done|].
  unfold ledgerOps. cbn [snd log append_log set_heap set_mainBatch
                         set_attachFlowBatch content].
  rewrite !omap_app, !recordKeys_sendEvents, !recordKeys_records.
  cbn [app]. by rewrite <- app_assoc.
Qed.

(** X2: whatever its outcome, [flush] leaves the attach manager empty; when
    it returns normally both managers are empty and the ledger has gained
    exactly the pending attach ops followed by the pending main ops, each
    once and in the order they were pending. *)
Theorem flush_drains params st :
  BatchManager.length (attachFlowBatch (this (snd (flush params st)))) = 0%nat
  ∧ (fst (flush params st) = Normal tt →
     isEmpty (snd (flush params st)) = true
     ∧ ledgerOps (snd (flush params st))
       = ledgerOps st
         ++ map opKey (BatchManager.pendingBatch (attachFlowBatch (this st)))
         ++ map opKey (BatchManager.pendingBatch (mainBatch (this st)))).
Proof. apply flush_outcome. Qed.

(** One attach op and two main ops: the ledger gets them in that order. *)
Lemma flush_drains_witness :
  let params := Examples.mkParams Infinity (Finite 100) 0 false true in
  let st := Examples.loaded params [Examples.hello]
              [Examples.collaboration; Examples.bang] true in
  isEmpty (snd (flush params st)) = true
  ∧ ledgerOps (snd (flush params st))
    = [opKey Examples.hello; opKey Examples.collaboration; opKey Examples.bang].
Proof.
  intros params st.
  exact (proj2 (flush_drains params st) eq_refl).
Defined.

(** ** No op is lost, duplicated or reordered *)

Lemma push_accepted message bm :
  fst (BatchManager.push message bm) = true →
  BatchManager.pendingBatch (snd (BatchManager.push message bm))
  = BatchManager.pendingBatch bm ++ [message].
Proof.
  unfold BatchManager.push. by case_match.
Qed.

Lemma submit_step message st st' :
  submit message st = (Normal tt, st') →
  log st' = log st
  ∧ attachFlowBatch (this st') = attachFlowBatch (this st)
  ∧ BatchManager.pendingBatch (mainBatch (this st'))
    = BatchManager.pendingBatch (mainBatch (this st)) ++ [message].
Proof.
  unfold submit, bind, mainBatch_push, gets, throw, ret.
  pose proof (push_accepted message (mainBatch (this st))) as Hp.
  destruct (BatchManager.push message (mainBatch (this st))) as [[|] bm];
    simpl in *; [|discriminate].
  intros [= <-]. simpl. by rewrite Hp.
Qed.

Lemma thresholdCheck_step params st st' :
  thresholdCheck params st = (Normal tt, st') →
  ∃ r, ledgerOps st' = ledgerOps st ++ r
       ∧ r ++ map opKey (BatchManager.pendingBatch (attachFlowBatch (this st')))
         = map opKey (BatchManager.pendingBatch (attachFlowBatch (this st)))
       ∧ mainBatch (this st') = mainBatch (this st).
Proof.
  unfold thresholdCheck.
  destruct (compressionOptions (config params)); [|discriminate].
  destruct (num_geb _ _).
  - intros Hf. apply flushInternal_recorded in Hf as [Hthis Hl].
    eexists. split; [exact Hl|]. rewrite Hthis. simpl.
    by rewrite app_nil_r.
  - intros [= <-]. exists []. by rewrite !app_nil_r.
Qed.

Lemma submitAttach_step params message st st' :
  submitAttach params message st = (Normal tt, st') →
  ∃ r, ledgerOps st' = ledgerOps st ++ r
       ∧ r ++ map opKey (BatchManager.pendingBatch (attachFlowBatch (this st')))
         = map opKey (BatchManager.pendingBatch (attachFlowBatch (this st))
                      ++ [message])
       ∧ mainBatch (this st') = mainBatch (this st).
Proof.
  rewrite submitAttach_unfold. cbv zeta.
  pose proof (push_accepted message (attachFlowBatch (this st))) as Hp1.
  pose proof (push_refused message (attachFlowBatch (this st))) as Hr1.
  destruct (fst (BatchManager.push message (attachFlowBatch (this st)))).
  - intros Hc. apply thresholdCheck_step in Hc as (r & Hl & Hr & Hm).
    exists r. split; [exact Hl|]. split; [|exact Hm].
    rewrite Hr. simpl. by rewrite Hp1.
  - destruct (Hr1 eq_refl) as [_ ->].
    destruct (flushInternal params _ _) as [[[]|e] st1] eqn:Hf; [|discriminate].
    apply flushInternal_recorded in Hf as [Hthis1 Hl1].
    pose proof (push_accepted message (attachFlowBatch (this st1))) as Hp2.
    destruct (fst (BatchManager.push message (attachFlowBatch (this st1))));
      [|discriminate].
    intros Hc. apply thresholdCheck_step in Hc as (r & Hl & Hr & Hm).
    simpl in Hl1, Hr, Hm, Hl.
    exists (map opKey (BatchManager.pendingBatch (attachFlowBatch (this st))) ++ r).
    split; [|split].
    + rewrite Hl. unfold ledgerOps in *. simpl. rewrite Hl1.
      by rewrite app_assoc.
    + rewrite <- app_assoc, Hr, Hp2 by done. rewrite Hthis1. simpl.
      by rewrite map_app.
    + rewrite Hm, Hthis1. done.
Qed.

Lemma submitOne_step params s st st' :
  submitOne params s st = (Normal tt, st') →
  ∃ r, ledgerOps st' = ledgerOps st ++ r
       ∧ r ++ map opKey (BatchManager.pendingBatch (attachFlowBatch (this st')))
         = map opKey (BatchManager.pendingBatch (attachFlowBatch (this st))
                      ++ attachOps [s])
       ∧ BatchManager.pendingBatch (mainBatch (this st'))
         = BatchManager.pendingBatch (mainBatch (this st)) ++ mainOps [s].
Proof.
  destruct s as [message|message]; simpl; intros H.
  - apply submit_step in H as (Hlog & Ha & Hm).
    exists []. unfold ledgerOps. rewrite Hlog, Ha, !app_nil_r. done.
  - apply submitAttach_step in H as (r & Hl & Hr & Hm).
    exists r. rewrite Hm, app_nil_r. done.
Qed.

Lemma forEach_submissions params ss st st' :
  forEach (submitOne params) ss st = (Normal tt, st') →
  ∃ r, ledgerOps st' = ledgerOps st ++ r
       ∧ r ++ map opKey (BatchManager.pendingBatch (attachFlowBatch (this st')))
         = map opKey (BatchManager.pendingBatch (attachFlowBatch (this st))
                      ++ attachOps ss)
       ∧ BatchManager.pendingBatch (mainBatch (this st'))
         = BatchManager.pendingBatch (mainBatch (this st)) ++ mainOps ss.
Proof.
  revert st. induction ss as [|s rest IH]; intros st.
  - intros [= <-]. exists []. by rewrite !app_nil_r.
  - cbn [forEach]. unfold bind.
    destruct (submitOne params s st) as [[[]|e] st1] eqn:Hs; [|discriminate].
    intros Hrest.
    apply submitOne_step in Hs as (r1 & Hl1 & Hr1 & Hm1).
    apply IH in Hrest as (r2 & Hl2 & Hr2 & Hm2).
    exists (r1 ++ r2). split; [|split].
    + by rewrite Hl2, Hl1, app_assoc.
    + rewrite <- app_assoc, Hr2, map_app, app_assoc, Hr1.
      change (s :: rest) with ([s] ++ rest).
      unfold attachOps. rewrite omap_app, !map_app, !app_assoc. done.
    + rewrite Hm2, Hm1. change (s :: rest) with ([s] ++ rest).
      unfold mainOps. by rewrite omap_app, app_assoc.
Qed.

(** X3: any sequence of [submit] and [submitAttach] calls followed by a
    [flush], all of which return normally, leaves the outbox empty and the
    ledger extended by every attach op (those pending at the start, then
    the submitted ones, in submission order) followed by every main op
    (likewise): each op once, none lost to the eager flushes of
    [submitAttach], and the attach flow ahead of the main flow. *)
Theorem submissions_then_flush params ss st :
  fst ((forEach (submitOne params) ss ;; flush params) st) = Normal tt →
  isEmpty (snd ((forEach (submitOne params) ss ;; flush params) st)) = true
  ∧ ledgerOps (snd ((forEach (submitOne params) ss ;; flush params) st))
    = ledgerOps st
      ++ map opKey (BatchManager.pendingBatch (attachFlowBatch (this st))
                    ++ attachOps ss)
      ++ map opKey (BatchManager.pendingBatch (mainBatch (this st))
                    ++ mainOps ss).
Proof.
  unfold bind at 1 2 3.
  destruct (forEach (submitOne params) ss st) as [[[]|e] st1] eqn:Hss;
    [|discriminate].
  intros Hflush.
  apply forEach_submissions in Hss as (r & Hl & Hr & Hm).
  destruct (proj2 (flush_outcome params st1) Hflush) as [Hempty Hledger].
  split; [exact Hempty|].
  rewrite Hledger, Hl, Hm, <- Hr. by rewrite <- !app_assoc.
Qed.

(** Compression off and a hard limit of 15 bytes: "hello" is attached, a
    main op is submitted, then "collaboration" is attached, which flushes
    "hello" eagerly; after the final flush the ledger holds the two attach
    ops and then the main op. *)
Lemma submissions_then_flush_witness :
  let params := Examples.mkParams Infinity (Finite 15) 0 false true in
  let st := Examples.loaded params [] [] true in
  let ss := [ToAttach Examples.hello; ToMain Examples.bang;
             ToAttach Examples.collaboration] in
  ledgerOps (snd ((forEach (submitOne params) ss ;; flush params) st))
  = [opKey Examples.hello; opKey Examples.collaboration; opKey Examples.bang].
Proof.
  intros params st ss.
  exact (proj2 (submissions_then_flush params ss st eq_refl)).
Defined.

(** ** Invariants of every run *)

Lemma thresholdCheck_this params st :
  this (snd (thresholdCheck params st)) = this st
  ∨ this (snd (thresholdCheck params st))
    = this (set_attachFlowBatch
              (snd (BatchManager.popBatch (attachFlowBatch (this st)))) st).
Proof.
  unfold thresholdCheck.
  destruct (compressionOptions (config params)); [|by left].
  destruct (num_geb _ _); [|by left].
  right. apply flushInternal_this.
Qed.

Lemma submitAttach_options params message st :
  BatchManager.options (attachFlowBatch (this (snd (submitAttach params message st))))
  = BatchManager.options (attachFlowBatch (this st))
  ∧ BatchManager.options (mainBatch (this (snd (submitAttach params message st))))
    = BatchManager.options (mainBatch (this st)).
Proof.
  rewrite submitAttach_unfold. cbv zeta.
  pose proof (push_options message (attachFlowBatch (this st))) as Ho1.
  assert (∀ st', BatchManager.options (attachFlowBatch (this st'))
                 = BatchManager.options (attachFlowBatch (this st)) →
                 BatchManager.options (mainBatch (this st'))
                 = BatchManager.options (mainBatch (this st)) →
                 BatchManager.options
                   (attachFlowBatch (this (snd (thresholdCheck params st'))))
                 = BatchManager.options (attachFlowBatch (this st))
                 ∧ BatchManager.options
                     (mainBatch (this (snd (thresholdCheck params st'))))
                   = BatchManager.options (mainBatch (this st))) as Hcheck.
  { intros st' Ha Hm.
    destruct (thresholdCheck_this params st') as [-> | ->]; simpl; done. }
  destruct (fst (BatchManager.push message (attachFlowBatch (this st)))).
  - apply Hcheck; simpl; done.
  - match goal with |- context [flushInternal params ?b ?s] =>
      pose proof (flushInternal_this params b s) as H1;
      destruct (flushInternal params b s) as [[[]|e] st1] end; simpl in H1.
    + pose proof (push_options message (attachFlowBatch (this st1))) as Ho2.
      destruct (fst (BatchManager.push message (attachFlowBatch (this st1)))).
      * apply Hcheck; simpl; rewrite ?Ho2, H1; simpl; done.
      * simpl. rewrite ?Ho2, H1. simpl. done.
    + simpl. rewrite H1. simpl. done.
Qed.

Lemma perform_options params c st :
  BatchManager.options (attachFlowBatch (this (snd (perform params c st))))
  = BatchManager.options (attachFlowBatch (this st))
  ∧ BatchManager.options (mainBatch (this (snd (perform params c st))))
    = BatchManager.options (mainBatch (this st)).
Proof.
  destruct c as [message|message|]; simpl.
  - unfold submit, bind, mainBatch_push, gets, throw, ret.
    pose proof (push_options message (mainBatch (this st))) as Ho.
    by destruct (BatchManager.push message (mainBatch (this st))) as [[|] bm].
  - apply submitAttach_options.
  - destruct (compressionOverflows params
                (fst (BatchManager.popBatch (attachFlowBatch (this st))))) eqn:HovA.
    { by rewrite flush_attach_overflow by done. }
    rewrite flush_attach_normal by done.
    unfold bind, mainBatch_popBatch. cbn [BatchManager.popBatch fst snd].
    match goal with |- context [flushInternal params ?b (set_mainBatch ?m ?s)] =>
      rewrite (flushInternal_this params b (set_mainBatch m s)) end.
    cbn [this set_mainBatch attachFlowBatch mainBatch].
    rewrite flushInternal_this. done.
Qed.

Lemma run_options params calls st :
  BatchManager.options (attachFlowBatch (this (run params calls st)))
  = BatchManager.options (attachFlowBatch (this st))
  ∧ BatchManager.options (mainBatch (this (run params calls st)))
    = BatchManager.options (mainBatch (this st)).
Proof.
  revert st. induction calls as [|c rest IH]; intros st; [done|].
  cbn [run]. destruct (IH (snd (perform params c st))) as [-> ->].
  apply perform_options.
Qed.

(** X4: the limits of the two batch managers are those they were built
    with, after any sequence of [submit], [submitAttach] and [flush] calls,
    whether the calls return or throw. *)
Theorem limits_never_change params calls st :
  BatchManager.options (attachFlowBatch (this (run params calls st)))
  = BatchManager.options (attachFlowBatch (this st))
  ∧ BatchManager.options (mainBatch (this (run params calls st)))
    = BatchManager.options (mainBatch (this st)).
Proof. apply run_options. Qed.

Lemma partlyStripped_trans h0 h1 h2 :
  partlyStripped h0 h1 → partlyStripped h1 h2 → partlyStripped h0 h2.
Proof.
  intros H01 H12 l. destruct (H12 l) as [-> | ->]; [apply H01|].
  right. by apply partlyStripped_strip.
Qed.

Lemma flushInternal_heap params rawBatch st :
  partlyStripped (heap st) (heap (snd (flushInternal params rawBatch st)))
  ∧ (submitBatchFn_defined (containerContext params) = true →
     heap (snd (flushInternal params rawBatch st)) = heap st).
Proof.
  destruct (compressionOverflows params rawBatch) eqn:Hov.
  - rewrite flushInternal_overflow by done. split; [apply partlyStripped_refl|done].
  - rewrite flushInternal_normal by done. simpl. split.
    + apply sendHeap_partlyStripped.
    + intros Hmodern. unfold sendHeap. by rewrite Hmodern, andb_false_r.
Qed.

Lemma thresholdCheck_heap params st :
  partlyStripped (heap st) (heap (snd (thresholdCheck params st)))
  ∧ (submitBatchFn_defined (containerContext params) = true →
     heap (snd (thresholdCheck params st)) = heap st).
Proof.
  unfold thresholdCheck.
  destruct (compressionOptions (config params));
    [|split; [apply partlyStripped_refl|done]].
  destruct (num_geb _ _); [|split; [apply partlyStripped_refl|done]].
  match goal with |- context [flushInternal params ?b ?s] =>
    exact (flushInternal_heap params b s) end.
Qed.

Lemma perform_heap params c st :
  partlyStripped (heap st) (heap (snd (perform params c st)))
  ∧ (submitBatchFn_defined (containerContext params) = true →
     heap (snd (perform params c st)) = heap st).
Proof.
  destruct c as [message|message|]; simpl.
  - unfold submit, bind, mainBatch_push, gets, throw, ret.
    destruct (BatchManager.push message (mainBatch (this st))) as [[|] bm];
      simpl; split; try apply partlyStripped_refl; done.
  - rewrite submitAttach_unfold. cbv zeta.
    destruct (fst (BatchManager.push message (attachFlowBatch (this st)))).
    + match goal with |- context [thresholdCheck params ?s] =>
        exact (thresholdCheck_heap params s) end.
    + match goal with |- context [flushInternal params ?b ?s] =>
        destruct (flushInternal_heap params b s) as [H1 H1'];
        destruct (flushInternal params b s) as [[[]|e] st1] end;
        simpl in H1, H1'; [|by split].
      destruct (fst (BatchManager.push message (attachFlowBatch (this st1))));
        [|simpl; by split].
      match goal with |- context [thresholdCheck params ?s] =>
        destruct (thresholdCheck_heap params s) as [H2 H2'] end.
      simpl in H2, H2'. split.
      * by eapply partlyStripped_trans.
      * intros Hm. by rewrite H2', H1'.
  - destruct (compressionOverflows params
                (fst (BatchManager.popBatch (attachFlowBatch (this st))))) eqn:HovA.
    { rewrite flush_attach_overflow by done. simpl.
      split; [apply partlyStripped_refl|done]. }
    rewrite flush_attach_normal by done.
    unfold bind, mainBatch_popBatch. cbn [BatchManager.popBatch fst snd].
    destruct (flushInternal_heap params
                (fst (BatchManager.popBatch (attachFlowBatch (this st))))
                (set_attachFlowBatch
                   (snd (BatchManager.popBatch (attachFlowBatch (this st)))) st))
      as [H1 H1'].
    match goal with
      |- context [flushInternal params ?b (set_mainBatch ?m ?s)] =>
      destruct (flushInternal_heap params b (set_mainBatch m s)) as [H2 H2'] end.
    cbn [heap set_attachFlowBatch set_mainBatch] in H1, H1', H2, H2'. split.
    + eapply partlyStripped_trans; [exact H1|exact H2].
    + intros Hm. etransitivity; [exact (H2' Hm)|exact (H1' Hm)].
Qed.

Lemma run_heap params calls st :
  partlyStripped (heap st) (heap (run params calls st))
  ∧ (submitBatchFn_defined (containerContext params) = true →
     heap (run params calls st) = heap st).
Proof.
  revert st. induction calls as [|c rest IH]; intros st.
  - split; [apply partlyStripped_refl|done].
  - cbn [run]. destruct (IH (snd (perform params c st))) as [H2 H2'].
    destruct (perform_heap params c st) as [H1 H1']. split.
    + by eapply partlyStripped_trans.
    + intros Hm. by rewrite H2', H1'.
Qed.

(** X5: the only thing the outbox ever does to an op's metadata object is
    to delete a truthy [compressed] property from it.  After any sequence of
    calls, every object is either as it was or has lost exactly that
    property; no object appears or disappears; and when the transport has
    [submitBatchFn] no object changes at all. *)
Theorem metadata_only_loses_compressed params calls st :
  (∀ l,
     match heap st !! l, heap (run params calls st) !! l with
     | Some md, Some md' =>
         md' = md ∨ (hasCompressedFlag md = true ∧ md' = delete "compressed" md)
     | None, None => True
     | _, _ => False
     end)
  ∧ (submitBatchFn_defined (containerContext params) = true →
     heap (run params calls st) = heap st).
Proof.
  destruct (run_heap params calls st) as [Hp Hm]. split; [|exact Hm].
  intros l. destruct (Hp l) as [-> | ->].
  - destruct (heap st !! l); [by left|done].
  - destruct (heap st !! l) as [md|]; simpl; [|done].
    unfold strip. destruct (hasCompressedFlag md) eqn:Hf; [by right|by left].
Qed.

(** ** The errors of a constructed outbox *)

Lemma wellConfigured_options_defined params o :
  wellConfigured params o → is_Some (compressionOptions (config params)).
Proof.
  intros (o0 & Hc & _). unfold constructor in Hc.
  by destruct (compressionOptions (config params)).
Qed.

Lemma flushInternal_error params rawBatch st :
  normalOrBatchTooLarge (fst (flushInternal params rawBatch st)) = true.
Proof.
  destruct (compressionOverflows params rawBatch) eqn:Hov.
  - by rewrite flushInternal_overflow.
  - by rewrite flushInternal_normal.
Qed.

Lemma perform_error params c st :
  is_Some (compressionOptions (config params)) →
  normalOrBatchTooLarge (fst (perform params c st)) = true.
Proof.
  intros [options Ho]. destruct c as [message|message|]; simpl.
  - unfold submit, bind, mainBatch_push, gets, throw, ret.
    by destruct (BatchManager.push message (mainBatch (this st))) as [[|] bm].
  - rewrite submitAttach_unfold. cbv zeta.
    assert (∀ s, normalOrBatchTooLarge (fst (thresholdCheck params s)) = true)
      as Hcheck.
    { intros s. unfold thresholdCheck. rewrite Ho.
      destruct (num_geb _ _); [apply flushInternal_error|done]. }
    destruct (fst (BatchManager.push message (attachFlowBatch (this st))));
      [apply Hcheck|].
    match goal with |- context [flushInternal params ?b ?s] =>
      pose proof (flushInternal_error params b s) as H1;
      destruct (flushInternal params b s) as [[[]|e] st1] end; [|exact H1].
    destruct (fst (BatchManager.push message (attachFlowBatch (this st1))));
      [apply Hcheck|done].
  - unfold flush, bind, attachFlowBatch_popBatch, mainBatch_popBatch.
    cbn [BatchManager.popBatch].
    match goal with |- context [flushInternal params ?b ?s] =>
      pose proof (flushInternal_error params b s) as H1;
      destruct (flushInternal params b s) as [[[]|e] st1] end; [|exact H1].
    apply flushInternal_error.
Qed.

(** X6: an outbox that came out of the constructor never lets anything but
    [BatchTooLarge] escape: whatever calls were made before, each of
    [submit], [submitAttach] and [flush] either returns normally or throws a
    [GenericError] whose message is "BatchTooLarge". *)
Theorem only_BatchTooLarge params o calls c st :
  constructor params = Normal o →
  normalOrBatchTooLarge (fst (perform params c (run params calls st))) = true.
Proof.
  intros Hc. apply perform_error. unfold constructor in Hc.
  by destruct (compressionOptions (config params)).
Qed.

Lemma only_BatchTooLarge_witness :
  normalOrBatchTooLarge
    (fst (perform (Examples.mkParams (Finite 8) (Finite 4) 9 false true)
            CallFlush
            (run (Examples.mkParams (Finite 8) (Finite 4) 9 false true)
               [CallSubmitAttach Examples.hello; CallSubmit Examples.collaboration]
               (Examples.loaded
                  (Examples.mkParams (Finite 8) (Finite 4) 9 false true)
                  [] [] true))))
  = true.
Proof.
  exact (only_BatchTooLarge
           (Examples.mkParams (Finite 8) (Finite 4) 9 false true)
           (Examples.constructed
              (Examples.mkParams (Finite 8) (Finite 4) 9 false true))
           [CallSubmitAttach Examples.hello; CallSubmit Examples.collaboration]
           CallFlush
           (Examples.loaded
              (Examples.mkParams (Finite 8) (Finite 4) 9 false true) [] [] true)
           eq_refl).
Defined.

(** ** The discipline of the transport calls *)

Lemma disciplined_refl params st : disciplined params st st.
Proof. split; [done|]. exists []. by rewrite app_nil_r. Qed.

Lemma disciplined_trans params st0 st1 st2 :
  disciplined params st0 st1 → disciplined params st1 st2 →
  disciplined params st0 st2.
Proof.
  intros [Hc1 (es1 & Hl1 & Ha1)] [Hc2 (es2 & Hl2 & Ha2)].
  split; [congruence|]. exists (es1 ++ es2). split.
  - by rewrite Hl2, Hl1, app_assoc.
  - apply Forall_app. split; [done|]. by rewrite <- Hc1.
Qed.

Lemma allowed_legacyCalls params h batch :
  submitBatchFn_defined (containerContext params) = false →
  Forall (allowedCall params true) (legacyCalls h batch).
Proof.
  intros Hl. revert h. induction batch as [|message rest IH]; intros h; simpl.
  - constructor.
  - constructor; [done|apply IH].
Qed.

Lemma allowed_sendEvents params batch st :
  Forall (allowedCall params (connected st)) (sendEvents params batch st).
Proof.
  unfold sendEvents. destruct (sends batch st) eqn:Hs; [|constructor].
  unfold sends in Hs. apply negb_true_iff, orb_false_iff in Hs as [Hne Hon].
  apply negb_false_iff in Hon. rewrite Hon.
  destruct (submitBatchFn_defined (containerContext params)) eqn:Hm;
    cbn [negb].
  - constructor; [|constructor]. cbn [allowedCall]. rewrite Hm.
    split; [done|]. split; [done|].
    destruct (content batch); [discriminate|done].
  - apply Forall_app. split.
    + by apply allowed_legacyCalls.
    + constructor; [done|constructor].
Qed.

Lemma allowed_records params online h batch :
  Forall (allowedCall params online) (map (ledgerRecord h) batch).
Proof. induction batch; simpl; constructor; done. Qed.

Lemma flushInternal_disciplined params rawBatch st :
  disciplined params st (snd (flushInternal params rawBatch st)).
Proof.
  destruct (compressionOverflows params rawBatch) eqn:Hov.
  - rewrite flushInternal_overflow by done. apply disciplined_refl.
  - rewrite flushInternal_normal by done. split; [done|].
    eexists. split; [reflexivity|].
    apply Forall_app. split; [apply allowed_sendEvents|apply allowed_records].
Qed.

Lemma set_attachFlowBatch_disciplined params bm st :
  disciplined params st (set_attachFlowBatch bm st).
Proof. split; [done|]. exists []. by rewrite app_nil_r. Qed.

Lemma set_mainBatch_disciplined params bm st :
  disciplined params st (set_mainBatch bm st).
Proof. split; [done|]. exists []. by rewrite app_nil_r. Qed.

Lemma thresholdCheck_disciplined params st :
  disciplined params st (snd (thresholdCheck params st)).
Proof.
  unfold thresholdCheck.
  destruct (compressionOptions (config params)); [|apply disciplined_refl].
  destruct (num_geb _ _); [|apply disciplined_refl].
  eapply disciplined_trans; [|apply flushInternal_disciplined].
  apply set_attachFlowBatch_disciplined.
Qed.

Lemma perform_disciplined params c st :
  disciplined params st (snd (perform params c st)).
Proof.
  destruct c as [message|message|]; simpl.
  - unfold submit, bind, mainBatch_push, gets, throw, ret.
    destruct (BatchManager.push message (mainBatch (this st))) as [[|] bm];
      simpl; apply set_mainBatch_disciplined.
  - rewrite submitAttach_unfold. cbv zeta.
    destruct (fst (BatchManager.push message (attachFlowBatch (this st)))).
    + eapply disciplined_trans; [|apply thresholdCheck_disciplined].
      apply set_attachFlowBatch_disciplined.
    + match goal with |- context [flushInternal params ?b ?s] =>
        pose proof (flushInternal_disciplined params b s) as H1;
        destruct (flushInternal params b s) as [[[]|e] st1] end; simpl in H1.
      2:{ eapply disciplined_trans; [|exact H1].
          apply set_attachFlowBatch_disciplined. }
      assert (disciplined params st st1) as H01.
      { eapply disciplined_trans; [|exact H1].
        apply set_attachFlowBatch_disciplined. }
      destruct (fst (BatchManager.push message (attachFlowBatch (this st1)))).
      * eapply disciplined_trans; [exact H01|].
        eapply disciplined_trans; [|apply thresholdCheck_disciplined].
        apply set_attachFlowBatch_disciplined.
      * simpl. eapply disciplined_trans; [exact H01|].
        apply set_attachFlowBatch_disciplined.
  - unfold flush, bind, attachFlowBatch_popBatch, mainBatch_popBatch.
    cbn [BatchManager.popBatch].
    match goal with |- context [flushInternal params ?b ?s] =>
      pose proof (flushInternal_disciplined params b s) as H1;
      destruct (flushInternal params b s) as [[[]|e] st1] end; simpl in H1.
    2:{ eapply disciplined_trans; [|exact H1].
        apply set_attachFlowBatch_disciplined. }
    eapply disciplined_trans;
      [eapply disciplined_trans; [|exact H1];
       apply set_attachFlowBatch_disciplined|].
    eapply disciplined_trans; [|apply flushInternal_disciplined].
    apply set_mainBatch_disciplined.
Qed.

Lemma run_disciplined params calls st :
  disciplined params st (run params calls st).
Proof.
  revert st. induction calls as [|c rest IH]; intros st.
  - apply disciplined_refl.
  - cbn [run]. eapply disciplined_trans; [apply perform_disciplined|apply IH].
Qed.

(** X7: over any sequence of calls the log only grows, and every call the
    outbox makes to the transport fits the transport and the connection: a
    [submitBatchFn] call is made only when the context has [submitBatchFn],
    and never with an empty batch; [submitFn] and the delta manager's
    [flush] are called only when it has not; and as long as [shouldSend()]
    answers false nothing is called but the pending state manager. *)
Theorem transport_discipline params calls st :
  ∃ es,
    log (run params calls st) = log st ++ es
    ∧ (∀ e, e ∈ es →
         match e with
         | SubmitBatchFn batch =>
             submitBatchFn_defined (containerContext params) = true ∧ batch ≠ []
         | SubmitFn _ _ _ _ | DeltaManagerFlush =>
             submitBatchFn_defined (containerContext params) = false
         | OnSubmitMessage _ _ _ _ _ => True
         end)
    ∧ (connected st = false → ∀ e, e ∈ es → isTransportCall e = false).
Proof.
  destruct (run_disciplined params calls st) as [_ (es & Hlog & Hall)].
  exists es. split; [exact Hlog|].
  rewrite Forall_forall in Hall. split.
  - intros e He. specialize (Hall e He). destruct e; simpl in *; tauto.
  - intros Hoff e He. specialize (Hall e He). rewrite Hoff in Hall.
    destruct e; simpl in *; [| |destruct Hall as (_ & Hon & _)|done];
      try destruct Hall as [_ Hon]; discriminate.
Qed.

(** ** On the legacy path the ledger sees what the transport saw *)

Lemma stripAt_lookup_other h message l :
  metadata message ≠ Some l → stripAt h message !! l = h !! l.
Proof.
  intros Hne. unfold stripAt. destruct (metadata message) as [l'|]; [|done].
  apply lookup_alter_ne. congruence.
Qed.

Lemma foldl_stripAt_lookup batch h0 h l :
  partlyStripped h0 h →
  l ∈ metadataRefs batch ∨ h !! l = strip <$> (h0 !! l) →
  foldl stripAt h batch !! l = strip <$> (h0 !! l).
Proof.
  revert h. induction batch as [|message rest IH]; intros h Hp Hl.
  - destruct Hl as [Hl|Hl]; [|done]. by apply elem_of_nil in Hl.
  - cbn [foldl]. apply IH; [by apply partlyStripped_stripAt|].
    destruct (decide (metadata message = Some l)) as [Hm|Hm].
    + right. rewrite (stripAt_lookup _ _ _ Hm). by apply partlyStripped_strip.
    + destruct Hl as [Hl|Hl].
      * left. unfold metadataRefs in *.
        apply list_elem_of_omap in Hl as (x & Hx & Hfx).
        apply elem_of_cons in Hx as [->|Hx]; [done|].
        apply list_elem_of_omap. by exists x.
      * right. by rewrite stripAt_lookup_other.
Qed.

Lemma metadataRefs_lookup (batch : list BatchMessage) i message l :
  batch !! i = Some message → metadata message = Some l →
  l ∈ metadataRefs batch.
Proof.
  intros Hi Hm. unfold metadataRefs. apply list_elem_of_omap.
  exists message. split; [|done]. by eapply list_elem_of_lookup_2.
Qed.

(** X8: a batch that is sent as it is (not compressed) on the legacy path:
    the flush returns normally, the log gains one [submitFn] call per op,
    the delta manager's flush, then one ledger record per op; and for each
    op the ledger record carries exactly the metadata argument its [submitFn]
    call carried, the op's own metadata object as the send loop left it,
    that is without a truthy [compressed] flag, even when several ops share
    one metadata object. *)
Theorem legacy_ledger_matches_wire params rawBatch st :
  submitBatchFn_defined (containerContext params) = false →
  leftAlone params rawBatch →
  content rawBatch ≠ [] →
  connected st = true →
  ∃ st' calls records,
    flushInternal params rawBatch st = (Normal tt, st')
    ∧ log st' = log st ++ calls ++ [DeltaManagerFlush] ++ records
    ∧ ∀ i message, content rawBatch !! i = Some message →
        ∃ arg,
          calls !! i
          = Some (SubmitFn MessageType_Operation (deserializedContent message)
                    true arg)
          ∧ records !! i
            = Some (OnSubmitMessage (crm_type (deserializedContent message))
                      (referenceSequenceNumber message)
                      (crm_contents (deserializedContent message))
                      (localOpMetadata message) arg)
          ∧ arg_ref arg = metadata message
          ∧ arg_seen arg = strip <$> (metadata message ≫= (λ l, heap st !! l))
          ∧ (∀ md, arg_seen arg = Some md → hasCompressedFlag md = false).
Proof.
  intros Hlegacy Halone Hne Hon.
  apply nothingToCompress_leftAlone in Halone.
  exists (snd (flushInternal params rawBatch st)),
         (legacyCalls (heap st) (content rawBatch)),
         (map (ledgerRecord (foldl stripAt (heap st) (content rawBatch)))
              (content rawBatch)).
  assert (sends rawBatch st = true) as Hs.
  { unfold sends. rewrite Hon. by destruct (content rawBatch). }
  rewrite flushInternal_normal by (by apply overflow_not_nothing).
  rewrite processed_nothing by done.
  unfold sendEvents, sendHeap. rewrite Hs, Hlegacy. cbn [negb andb snd].
  split; [done|]. split.
  { cbn [log append_log set_heap]. by rewrite <- !app_assoc. }
  intros i message Hi.
  exists {| arg_ref := metadata message;
            arg_seen := strip <$> (metadata message ≫= (λ l, heap st !! l)) |}.
  split; [|split; [|split; [done|split; [done|]]]].
  - by apply (legacyCalls_lookup (heap st)); [apply partlyStripped_refl|].
  - rewrite list_lookup_fmap, Hi. cbn. unfold ledgerRecord, pass. do 3 f_equal.
    destruct (metadata message) as [l|] eqn:Hm; [|done]. cbn.
    apply foldl_stripAt_lookup; [apply partlyStripped_refl|].
    left. by eapply metadataRefs_lookup.
  - cbn. intros md Hmd.
    destruct (metadata message ≫= (λ l, heap st !! l)) as [md0|];
      [|discriminate].
    injection Hmd as <-. apply strip_no_flag.
Qed.

(** Two ops on the legacy path, compression off: the ledger record of the
    flagged op sees its metadata object without the flag. *)
Lemma legacy_ledger_matches_wire_witness :
  let params := Examples.mkParams Infinity (Finite 100) 0 false false in
  let rawBatch := {| content := [Examples.hello; Examples.collaboration];
                     contentSizeInBytes := 18 |} in
  let st := Examples.loaded params [] [] true in
  ∃ st' calls records,
    flushInternal params rawBatch st = (Normal tt, st')
    ∧ log st' = log st ++ calls ++ [DeltaManagerFlush] ++ records
    ∧ records !! 0%nat
      = Some (OnSubmitMessage "component" 7 (JStr "hello") (JNum 7)
                {| arg_ref := Some 1%positive;
                   arg_seen := Some {["batch" := JBool true]} |}).
Proof.
  intros params rawBatch st.
  assert (leftAlone params rawBatch) as Halone
    by (right; left; reflexivity).
  assert (content rawBatch ≠ []) as Hne by discriminate.
  destruct (legacy_ledger_matches_wire params rawBatch st eq_refl Halone Hne eq_refl)
    as (st' & calls & records & Hflush & Hlog & Hall).
  destruct (Hall 0%nat Examples.hello eq_refl)
    as ([ref seen] & _ & Hrecord & Href & Hseen & _).
  exists st', calls, records. split; [exact Hflush|]. split; [exact Hlog|].
  rewrite Hrecord. cbn in Href, Hseen. rewrite Href, Hseen. reflexivity.
Defined.

(** ** The work types a worker registers for *)

Lemma foldl_assignTrue_lookup workTypes (acc : gmap string bool) k :
  foldl Register.assignTrue acc workTypes !! k
  = if decide (k ∈ workTypes ∧ k ≠ "__proto__") then Some true else acc !! k.
Proof.
  revert acc. induction workTypes as [|workType rest IH]; intros acc.
  - cbn. case_decide as H; [|done]. destruct H as [H _].
    by apply elem_of_nil in H.
  - cbn [foldl]. rewrite IH. unfold Register.assignTrue.
    destruct (decide (k ∈ rest ∧ k ≠ "__proto__")) as [[Hin Hk]|Hrest].
    + rewrite decide_True; [done|]. split; [by apply elem_of_cons; right|done].
    + destruct (decide (workType = "__proto__")) as [->|Hw].
      * rewrite decide_False; [done|]. intros [Hin Hk].
        apply elem_of_cons in Hin as [->|Hin]; [done|]. by apply Hrest.
      * destruct (decide (k = workType)) as [->|Hkw].
        -- rewrite lookup_insert_eq. rewrite decide_True; [done|].
           split; [by apply elem_of_cons; left|done].
        -- rewrite lookup_insert_ne by done. rewrite decide_False; [done|].
           intros [Hin Hk]. apply elem_of_cons in Hin as [->|Hin]; [done|].
           by apply Hrest.
Qed.

(** X9: when [registerWorker] goes ahead (the config is not server-only and
    lists work types for the runner type), it returns normally after building
    the work manager and the worker service with one and the same work type
    map, whose own properties are exactly the listed work types, each set to
    [true]: a work type listed twice counts once, nothing that is not listed
    is there, and a listed [__proto__] leaves no property. *)
Theorem registerWorker_workTypeMap config runnerType rejects table workTypes :
  truthy (Register.onlyServer config) = false →
  Register.permission config = Some table →
  table !! runnerType = Some workTypes →
  ∃ workTypeMap,
    fst (Register.registerWorker config runnerType rejects) = Normal tt
    ∧ Register.NewWorkManager config (Register.serverUrl config) runnerType
        workTypeMap
      ∈ snd (Register.registerWorker config runnerType rejects)
    ∧ Register.NewWorkerService (Register.url config) config workTypeMap
      ∈ snd (Register.registerWorker config runnerType rejects)
    ∧ ∀ workType,
        workTypeMap !! workType
        = if decide (workType ∈ workTypes ∧ workType ≠ "__proto__")
          then Some true else None.
Proof.
  intros Hserver Hp Ht. exists (Register.buildWorkTypeMap workTypes).
  unfold Register.registerWorker. rewrite Hserver, Hp, Ht. cbn [negb fst snd].
  split; [done|]. split; [|split].
  - apply elem_of_app; right. apply elem_of_app; left.
    apply elem_of_cons; by left.
  - apply elem_of_app; right. apply elem_of_app; left.
    apply elem_of_cons; right. apply elem_of_cons; by left.
  - intros workType. unfold Register.buildWorkTypeMap.
    rewrite foldl_assignTrue_lookup. by rewrite lookup_empty.
Qed.

(** The runner "paparazzi" of the example config, whose first connection
    fails. *)
Lemma registerWorker_workTypeMap_witness :
  ∃ workTypeMap,
    Register.NewWorkerService (JStr "http://worker") RegisterExamples.config
      workTypeMap
    ∈ snd (Register.registerWorker RegisterExamples.config "paparazzi" true)
    ∧ workTypeMap !! "snapshot" = Some true
    ∧ workTypeMap !! "intel" = Some true
    ∧ workTypeMap !! "__proto__" = None
    ∧ workTypeMap !! "spell" = None.
Proof.
  destruct (registerWorker_workTypeMap RegisterExamples.config "paparazzi" true
              RegisterExamples.table
              ["snapshot"; "intel"; "snapshot"; "__proto__"]
              eq_refl eq_refl ltac:(vm_compute; reflexivity))
    as (workTypeMap & _ & _ & Hservice & Hmap).
  exists workTypeMap. split; [exact Hservice|].
  rewrite !Hmap. repeat split; vm_compute; reflexivity.
Defined.

(** ** When a flush cannot throw *)

Lemma chunking_never_overflows params batch :
  OpSplitter.isBatchChunkingEnabled (splitter params) = true →
  compressionOverflows params batch = false.
Proof. intros H. unfold compressionOverflows. by rewrite H, andb_false_r. Qed.

Lemma disabled_never_overflows params batch :
  compressionDisabled params → compressionOverflows params batch = false.
Proof.
  intros H. apply overflow_not_nothing, nothingToCompress_leftAlone.
  right. by left.
Qed.

(** X10: [flush] can throw only on the compression-overflow path: when the
    splitter has chunking enabled, or when compression is disabled (no
    options, or an infinite threshold), every [flush] returns normally and
    leaves the outbox empty, whatever was pending and whatever the
    compressor answers. *)
Theorem flush_cannot_throw params st :
  OpSplitter.isBatchChunkingEnabled (splitter params) = true
  ∨ compressionDisabled params →
  fst (flush params st) = Normal tt
  ∧ isEmpty (snd (flush params st)) = true.
Proof.
  intros Hsafe.
  assert (∀ batch, compressionOverflows params batch = false) as Hno.
  { intros batch. destruct Hsafe as [H|H].
    - by apply chunking_never_overflows.
    - by apply disabled_never_overflows. }
  assert (fst (flush params st) = Normal tt) as Hnormal.
  { rewrite flush_attach_normal by apply Hno.
    unfold bind, mainBatch_popBatch. cbn [BatchManager.popBatch fst snd].
    by rewrite flushInternal_normal by apply Hno. }
  split; [exact Hnormal|].
  exact (proj1 (proj2 (flush_outcome params st) Hnormal)).
Qed.

(** The compressor stub reports 9 bytes against a ceiling of 4, but chunking
    is on: the flush returns. *)
Lemma flush_cannot_throw_witness :
  let params := Examples.mkParams (Finite 8) (Finite 4) 9 true true in
  let st := Examples.loaded params [Examples.hello; Examples.collaboration]
              [Examples.bang] true in
  fst (flush params st) = Normal tt
  ∧ isEmpty (snd (flush params st)) = true.
Proof.
  intros params st.
  exact (flush_cannot_throw params st (or_introl eq_refl)).
Defined.

(** ** With compression on, nothing is refused *)

Lemma push_unbounded message bm :
  BatchManager.hardLimit (BatchManager.options bm) = Infinity →
  fst (BatchManager.push message bm) = true.
Proof. intros H. unfold BatchManager.push. by rewrite H. Qed.

(** X11: in an outbox built by the constructor with compression enabled (a
    finite [minimumBatchSizeInBytes]), both managers have an infinite hard
    limit for good: after any sequence of calls, [submit] returns normally
    whatever the size of the op, and the first push of [submitAttach]
    succeeds, so that it never needs its flush-and-retry. *)
Theorem nothing_refused_with_compression params o options calls message st :
  constructor params = Normal o →
  compressionOptions (config params) = Some options →
  minimumBatchSizeInBytes options ≠ Infinity →
  this st = o →
  fst (submit message (run params calls st)) = Normal tt
  ∧ fst (BatchManager.push message
           (attachFlowBatch (this (run params calls st)))) = true.
Proof.
  intros Hc Ho Hfin Hthis.
  destruct (run_options params calls st) as [Ha Hm].
  unfold constructor in Hc. rewrite Ho in Hc.
  rewrite bool_decide_eq_false_2 in Hc by done. cbn [negb] in Hc.
  injection Hc as <-. rewrite Hthis in Ha, Hm. cbn in Ha, Hm.
  split.
  - unfold submit, bind, mainBatch_push, gets, throw, ret.
    pose proof (push_unbounded message (mainBatch (this (run params calls st))))
      as Hp. rewrite Hm in Hp. specialize (Hp eq_refl).
    by destruct (BatchManager.push message _) as [[|] bm].
  - apply push_unbounded. by rewrite Ha.
Qed.

(** A threshold of 8 bytes and a ceiling of 4: after two calls, an op of 13
    bytes is still accepted by [submit]. *)
Lemma nothing_refused_with_compression_witness :
  let params := Examples.mkParams (Finite 8) (Finite 4) 3 false true in
  let st := Examples.loaded params [] [] true in
  fst (submit Examples.collaboration
         (run params [CallSubmit Examples.hello; CallFlush] st)) = Normal tt.
Proof.
  intros params st.
  assert (Finite 8 ≠ Infinity) as Hfin by discriminate.
  exact (proj1 (nothing_refused_with_compression params
                  (Examples.constructed params)
                  {| minimumBatchSizeInBytes := Finite 8;
                     compressionAlgorithm := "lz4" |}
                  [CallSubmit Examples.hello; CallFlush]
                  Examples.collaboration st eq_refl eq_refl Hfin eq_refl)).
Defined.
